(** * MediaControls: the peer connection orchestration of the call component

    A shallow embedding of [src/components/MediaControls.tsx].

    The component keeps seven [useState] cells and calls into three kinds of
    browser objects that it shares between handlers: media stream tracks,
    media streams and peer connections.  Those objects are mutated in place
    ([track.enabled = ...], [localStream.addTrack], [sender.replaceTrack]),
    so they live in an explicit store and the hook cells hold references
    (indices) into it.

    Every handler is a closure of the render that created it: it reads the
    hook values of that render and writes through the setters.  A handler is
    therefore a function of a [Render] (what the closure sees) and of the
    [World] (the store and the current hook cells).

    A handler runs to completion: the continuations after its [await]s are
    not interleaved with other events.  The outcome of a media request
    (granted or not) is an input of the handler that makes it. *)

From stdpp Require Import base list strings.

(** ** Data model *)

(** Participant ids are strings; tracks, streams and connections are
    referred to by their position in the store; candidates are opaque. *)
Abbreviation Id := string (only parsing).
Abbreviation TrackId := nat (only parsing).
Abbreviation StreamId := nat (only parsing).
Abbreviation ConnId := nat (only parsing).
Abbreviation Candidate := nat (only parsing).

Inductive TrackKind := audio | video.

Definition isVideo (k : TrackKind) : bool :=
  match k with video => true | audio => false end.

Definition isAudio (k : TrackKind) : bool :=
  match k with audio => true | video => false end.

(** A [MediaStreamTrack]: [live] is [readyState === 'live'], [onended] tells
    whether the screen-share termination callback is registered on it. *)
Record MediaStreamTrack := mkTrack {
  kind : TrackKind;
  enabled : bool;
  live : bool;
  onended : bool
}.

(** Session descriptions.  [CreateOffer pc] and [CreateAnswer pc] are what
    [pc.createOffer()] and [pc.createAnswer()] return; [RemoteSdp n] is a
    description that arrived in a payload. *)
Inductive Sdp :=
| CreateOffer (pc : ConnId)
| CreateAnswer (pc : ConnId)
| RemoteSdp (n : nat).

(** An [RTCPeerConnection], as far as the component drives it: the record
    keeps what the component has asked of the connection.  [senders] is
    [getSenders()], each with its [track] (possibly null);
    [addIceCandidateCalls] lists the candidates handed to [addIceCandidate],
    oldest first.  [cbTo], [cbFrom] and [cbRegisters] are the variables
    captured by [onicecandidate] and [ontrack]: the remote id, the local id,
    and whether [ontrack] updates [peerConnections] (it does for connections
    made by [createPeerConnection], not for those made by [handleOffer]). *)
Record RTCPeerConnection := mkConn {
  senders : list (option TrackId);
  localDescription : option Sdp;
  remoteDescription : option Sdp;
  addIceCandidateCalls : list Candidate;
  closed : bool;
  cbTo : Id;
  cbFrom : Id;
  cbRegisters : bool
}.

(** [interface PeerConnection { userId; connection; stream? }] *)
Record PeerConnection := mkPeer {
  userId : Id;
  connection : ConnId;
  stream : option StreamId
}.

(** The broadcast events of the signaling channel and their payloads. *)
Inductive Signal :=
| offer (o : Sdp)
| answer (a : Sdp)
| iceCandidate (c : option Candidate).

Record Payload := mkPayload {
  to : Id;
  from : Id;
  body : Signal
}.

(** [RoomParticipant], with the fields the call layer can observe. *)
Record RoomParticipant := mkParticipant {
  user_id : Id;
  is_online : bool
}.

(** The [useState] cells. *)
Record ReactState := mkState {
  isInCall : bool;
  isMuted : bool;
  isVideoOn : bool;
  isScreenSharing : bool;
  localStream : option StreamId;
  screenStream : option StreamId;
  peerConnections : list PeerConnection
}.

Definition initialState : ReactState :=
  mkState false false false false None None [].

(** What the closures of one render see.  [App] renders the component only
    for a signed-in user, so [user] is not null here and [user?.id] is
    [user]. *)
Record Render := mkRender {
  hooks : ReactState;
  user : Id;
  roomId : string;
  participants : list RoomParticipant
}.

(** The store of browser objects, the current hook cells, the
    [signalingChannel] ref and the messages sent on the channel. *)
Record World := mkWorld {
  current : ReactState;
  tracks : list MediaStreamTrack;
  streams : list (list TrackId);
  conns : list RTCPeerConnection;
  signalingChannel : option string;
  sent : list Payload
}.

(** ** State setters *)

Definition setState (f : ReactState → ReactState) (w : World) : World :=
  mkWorld (f (current w)) (tracks w) (streams w) (conns w)
          (signalingChannel w) (sent w).

Definition setTracks (f : list MediaStreamTrack → list MediaStreamTrack)
    (w : World) : World :=
  mkWorld (current w) (f (tracks w)) (streams w) (conns w)
          (signalingChannel w) (sent w).

Definition setStreams (f : list (list TrackId) → list (list TrackId))
    (w : World) : World :=
  mkWorld (current w) (tracks w) (f (streams w)) (conns w)
          (signalingChannel w) (sent w).

Definition setConns (f : list RTCPeerConnection → list RTCPeerConnection)
    (w : World) : World :=
  mkWorld (current w) (tracks w) (streams w) (f (conns w))
          (signalingChannel w) (sent w).

Definition setIsInCall (b : bool) (s : ReactState) : ReactState :=
  mkState b (isMuted s) (isVideoOn s) (isScreenSharing s)
          (localStream s) (screenStream s) (peerConnections s).

Definition setIsMuted (b : bool) (s : ReactState) : ReactState :=
  mkState (isInCall s) b (isVideoOn s) (isScreenSharing s)
          (localStream s) (screenStream s) (peerConnections s).

Definition setIsVideoOn (b : bool) (s : ReactState) : ReactState :=
  mkState (isInCall s) (isMuted s) b (isScreenSharing s)
          (localStream s) (screenStream s) (peerConnections s).

Definition setIsScreenSharing (b : bool) (s : ReactState) : ReactState :=
  mkState (isInCall s) (isMuted s) (isVideoOn s) b
          (localStream s) (screenStream s) (peerConnections s).

Definition setLocalStream (v : option StreamId) (s : ReactState) : ReactState :=
  mkState (isInCall s) (isMuted s) (isVideoOn s) (isScreenSharing s)
          v (screenStream s) (peerConnections s).

Definition setScreenStream (v : option StreamId) (s : ReactState) : ReactState :=
  mkState (isInCall s) (isMuted s) (isVideoOn s) (isScreenSharing s)
          (localStream s) v (peerConnections s).

Definition setPeerConnections
    (f : list PeerConnection → list PeerConnection) (s : ReactState)
    : ReactState :=
  mkState (isInCall s) (isMuted s) (isVideoOn s) (isScreenSharing s)
          (localStream s) (screenStream s) (f (peerConnections s)).

(** ** Browser objects *)

(** [track.stop()] *)
Definition stopTrack (tr : MediaStreamTrack) : MediaStreamTrack :=
  mkTrack (kind tr) (enabled tr) false (onended tr).

Definition setEnabled (b : bool) (tr : MediaStreamTrack) : MediaStreamTrack :=
  mkTrack (kind tr) b (live tr) (onended tr).

Definition setOnended (tr : MediaStreamTrack) : MediaStreamTrack :=
  mkTrack (kind tr) (enabled tr) (live tr) true.

(** The browser ends a track itself (the user stopped sharing). *)
Definition endTrack (tr : MediaStreamTrack) : MediaStreamTrack :=
  mkTrack (kind tr) (enabled tr) false (onended tr).

Definition kindIs (p : TrackKind → bool) (ts : list MediaStreamTrack)
    (t : TrackId) : bool :=
  match ts !! t with
  | Some tr => p (kind tr)
  | None => false
  end.

(** [stream.getTracks()], [getAudioTracks()], [getVideoTracks()] *)
Definition getTracks (w : World) (s : StreamId) : list TrackId :=
  default [] (streams w !! s).

Definition getAudioTracks (w : World) (s : StreamId) : list TrackId :=
  List.filter (kindIs isAudio (tracks w)) (getTracks w s).

Definition getVideoTracks (w : World) (s : StreamId) : list TrackId :=
  List.filter (kindIs isVideo (tracks w)) (getTracks w s).

(** A [forEach] loop whose body applies [f] in place to the stored object
    that the element refers to. *)
Definition alterEach {A B} (f : A → A) (key : B → nat) (l : list A)
    (xs : list B) : list A :=
  foldl (λ l x, alter f (key x) l) l xs.

(** [stream.getTracks().forEach((track) => track.stop())] *)
Definition stopAll (l : list TrackId) (w : World) : World :=
  setTracks (λ ts, alterEach stopTrack id ts l) w.

(** [new RTCPeerConnection(iceServers)] with the callbacks' captured
    variables. *)
Definition newConn (remote self : Id) (registers : bool) : RTCPeerConnection :=
  mkConn [] None None [] false remote self registers.

(** [pc.addTrack(track, stream)] *)
Definition addTrack (t : TrackId) (pc : RTCPeerConnection) : RTCPeerConnection :=
  mkConn (senders pc ++ [Some t]) (localDescription pc) (remoteDescription pc)
         (addIceCandidateCalls pc) (closed pc) (cbTo pc) (cbFrom pc)
         (cbRegisters pc).

(** [sender.replaceTrack(track)] on the sender at position [i] *)
Definition replaceTrack (i : nat) (t : TrackId) (pc : RTCPeerConnection)
    : RTCPeerConnection :=
  mkConn (<[i := Some t]> (senders pc)) (localDescription pc)
         (remoteDescription pc) (addIceCandidateCalls pc) (closed pc)
         (cbTo pc) (cbFrom pc) (cbRegisters pc).

Definition setLocalDescription (d : Sdp) (pc : RTCPeerConnection)
    : RTCPeerConnection :=
  mkConn (senders pc) (Some d) (remoteDescription pc)
         (addIceCandidateCalls pc) (closed pc) (cbTo pc) (cbFrom pc)
         (cbRegisters pc).

Definition setRemoteDescription (d : Sdp) (pc : RTCPeerConnection)
    : RTCPeerConnection :=
  mkConn (senders pc) (localDescription pc) (Some d)
         (addIceCandidateCalls pc) (closed pc) (cbTo pc) (cbFrom pc)
         (cbRegisters pc).

Definition addIceCandidate (c : Candidate) (pc : RTCPeerConnection)
    : RTCPeerConnection :=
  mkConn (senders pc) (localDescription pc) (remoteDescription pc)
         (addIceCandidateCalls pc ++ [c]) (closed pc) (cbTo pc) (cbFrom pc)
         (cbRegisters pc).

(** [pc.close()] *)
Definition close (pc : RTCPeerConnection) : RTCPeerConnection :=
  mkConn (senders pc) (localDescription pc) (remoteDescription pc)
         (addIceCandidateCalls pc) true (cbTo pc) (cbFrom pc)
         (cbRegisters pc).

(** [signalingChannel.current?.send({type: 'broadcast', event, payload})] *)
Definition send (p : Payload) (w : World) : World :=
  match signalingChannel w with
  | Some _ =>
      mkWorld (current w) (tracks w) (streams w) (conns w)
              (signalingChannel w) (sent w ++ [p])
  | None => w
  end.

(** [peerConnections.forEach((pc) => f(pc.connection))] for an [f] that
    acts on the connection object only. *)
Definition forEachPeer (f : RTCPeerConnection → RTCPeerConnection)
    (pcs : list PeerConnection) (w : World) : World :=
  setConns (λ cs, alterEach f connection cs pcs) w.

(** [prev.find((p) => p.userId === userId)] *)
Definition findPeer (u : Id) (l : list PeerConnection) : option PeerConnection :=
  List.find (λ p, String.eqb (userId p) u) l.

(** Position of the sender found by
    [getSenders().find((s) => s.track?.kind === 'video')]. *)
Fixpoint findIndex {A} (p : A → bool) (l : list A) : option nat :=
  match l with
  | [] => None
  | x :: l' => if p x then Some 0 else S <$> findIndex p l'
  end.

Definition senderIsVideo (ts : list MediaStreamTrack) (s : option TrackId)
    : bool :=
  match s with
  | Some t => kindIs isVideo ts t
  | None => false
  end.

Definition findVideoSender (ts : list MediaStreamTrack)
    (pc : RTCPeerConnection) : option nat :=
  findIndex (senderIsVideo ts) (senders pc).

(** ** Media acquisition outcomes

    [getUserMedia] and [getDisplayMedia] either resolve with a fresh stream
    or reject.  [getUserMedia({audio: true, video: false})] resolves with
    one audio track, [getUserMedia({video: true})] with one video track,
    [getDisplayMedia({video: true, audio: true})] with one video track and,
    when the user shares system audio, one audio track. *)

Inductive UserMedia := granted | denied.
Inductive DisplayMedia := shared (systemAudio : bool) | cancelled.

Definition freshTrack (k : TrackKind) : MediaStreamTrack :=
  mkTrack k true true false.

(** ** Handlers *)

(** [stream.getTracks().forEach((track) => pc.addTrack(track, stream))] *)
Definition addTracks (l : list TrackId) (pc : RTCPeerConnection)
    : RTCPeerConnection :=
  foldl (λ pc t, addTrack t pc) pc l.

(** [createPeerConnection(userId, stream, initiator)].  The connection is
    entered in the store once its setup is complete; its index is the next
    free one. *)
Definition createPeerConnection (r : Render) (userId : Id) (stream : StreamId)
    (initiator : bool) (w : World) : World :=
  let id := length (conns w) in
  let pc := addTracks (getTracks w stream) (newConn userId (user r) true) in
  let pc := if initiator then setLocalDescription (CreateOffer id) pc else pc in
  let w := setConns (λ cs, cs ++ [pc]) w in
  let w :=
    if initiator
    then send (mkPayload userId (user r) (offer (CreateOffer id))) w
    else w in
  setState (setPeerConnections (λ prev,
    match findPeer userId prev with
    | Some _ => prev
    | None => prev ++ [mkPeer userId id None]
    end)) w.

(** [startCall] *)
Definition startCall (r : Render) (media : UserMedia) (w : World) : World :=
  match media with
  | denied => w
  | granted =>
      let t := length (tracks w) in
      let stream := length (streams w) in
      let w := setTracks (λ ts, ts ++ [freshTrack audio]) w in
      let w := setStreams (λ ss, ss ++ [[t]]) w in
      let w := setState (setLocalStream (Some stream)) w in
      let w := setState (setIsInCall true) w in
      let w := setState (setIsMuted false) w in
      foldl (λ w participant,
               if negb (String.eqb (user_id participant) (user r))
               then createPeerConnection r (user_id participant) stream true w
               else w)
            w (participants r)
  end.

(** [endCall] *)
Definition endCall (r : Render) (w : World) : World :=
  let w :=
    match localStream (hooks r) with
    | Some s => setState (setLocalStream None) (stopAll (getTracks w s) w)
    | None => w
    end in
  let w :=
    match screenStream (hooks r) with
    | Some s => setState (setScreenStream None) (stopAll (getTracks w s) w)
    | None => w
    end in
  let w := forEachPeer close (peerConnections (hooks r)) w in
  let w := setState (setPeerConnections (λ _, [])) w in
  let w := setState (setIsInCall false) w in
  let w := setState (setIsMuted false) w in
  let w := setState (setIsVideoOn false) w in
  setState (setIsScreenSharing false) w.

(** [toggleMute] *)
Definition toggleMute (r : Render) (w : World) : World :=
  match localStream (hooks r) with
  | Some s =>
      match getAudioTracks w s with
      | audioTrack :: _ =>
          match tracks w !! audioTrack with
          | Some tr =>
              let e := negb (enabled tr) in
              let w := setTracks (alter (setEnabled e) audioTrack) w in
              setState (setIsMuted (negb e)) w
          | None => w
          end
      | [] => w
      end
  | None => w
  end.

(** [toggleVideo] *)
Definition toggleVideo (r : Render) (media : UserMedia) (w : World) : World :=
  if negb (isVideoOn (hooks r)) then
    match media with
    | denied => w
    | granted =>
        let videoTrack := length (tracks w) in
        let videoStream := length (streams w) in
        let w := setTracks (λ ts, ts ++ [freshTrack video]) w in
        let w := setStreams (λ ss, ss ++ [[videoTrack]]) w in
        let w :=
          match localStream (hooks r) with
          | Some s => setStreams (alter (λ ts, ts ++ [videoTrack]) s) w
          | None => setState (setLocalStream (Some videoStream)) w
          end in
        let w := forEachPeer (addTrack videoTrack)
                             (peerConnections (hooks r)) w in
        setState (setIsVideoOn true) w
    end
  else
    let w :=
      match localStream (hooks r) with
      | Some s =>
          foldl (λ w t,
                   let w := setTracks (alter stopTrack t) w in
                   setStreams (alter (List.filter (λ t', negb (t' =? t))) s) w)
                w (getVideoTracks w s)
      | None => w
      end in
    setState (setIsVideoOn false) w.

(** The body of the [peerConnections.forEach] of [toggleScreenShare] when
    sharing starts: replace the track of the video sender, or add a track. *)
Definition shareOn (ts : list MediaStreamTrack) (videoTrack : TrackId)
    (pc : RTCPeerConnection) : RTCPeerConnection :=
  match findVideoSender ts pc with
  | Some i => replaceTrack i videoTrack pc
  | None => addTrack videoTrack pc
  end.

(** The body of the [forEach] when sharing stops ([sender && videoTrack]). *)
Definition shareOff (ts : list MediaStreamTrack) (videoTrack : option TrackId)
    (pc : RTCPeerConnection) : RTCPeerConnection :=
  match findVideoSender ts pc, videoTrack with
  | Some i, Some t => replaceTrack i t pc
  | _, _ => pc
  end.

(** [toggleScreenShare] *)
Definition toggleScreenShare (r : Render) (media : DisplayMedia) (w : World)
    : World :=
  if negb (isScreenSharing (hooks r)) then
    match media with
    | cancelled => w
    | shared systemAudio =>
        let videoTrack := length (tracks w) in
        let stream := length (streams w) in
        let w := setTracks (λ ts, ts ++ [freshTrack video]) w in
        let w :=
          if systemAudio
          then setStreams (λ ss, ss ++ [[videoTrack; S videoTrack]])
                 (setTracks (λ ts, ts ++ [freshTrack audio]) w)
          else setStreams (λ ss, ss ++ [[videoTrack]]) w in
        let w := setState (setScreenStream (Some stream)) w in
        let w := forEachPeer (shareOn (tracks w) videoTrack)
                             (peerConnections (hooks r)) w in
        let w := setTracks (alter setOnended videoTrack) w in
        setState (setIsScreenSharing true) w
    end
  else
    let w :=
      match screenStream (hooks r) with
      | Some s => setState (setScreenStream None) (stopAll (getTracks w s) w)
      | None => w
      end in
    let w :=
      match localStream (hooks r) with
      | Some s =>
          if isVideoOn (hooks r) then
            let videoTrack := head (getVideoTracks w s) in
            forEachPeer (shareOff (tracks w) videoTrack)
                        (peerConnections (hooks r)) w
          else w
      | None => w
      end in
    setState (setIsScreenSharing false) w.

(** [handleOffer(payload)], with [payload.offer] *)
Definition handleOffer (r : Render) (p : Payload) (o : Sdp) (w : World)
    : World :=
  match localStream (hooks r) with
  | None => w
  | Some s =>
      let id := length (conns w) in
      let pc := addTracks (getTracks w s) (newConn (from p) (user r) false) in
      let pc := setRemoteDescription o pc in
      let answer_ := CreateAnswer id in
      let pc := setLocalDescription answer_ pc in
      let w := setConns (λ cs, cs ++ [pc]) w in
      let w := send (mkPayload (from p) (user r) (answer answer_)) w in
      setState (setPeerConnections (λ prev, prev ++ [mkPeer (from p) id None]))
               w
  end.

(** [handleAnswer(payload)], with [payload.answer] *)
Definition handleAnswer (r : Render) (p : Payload) (a : Sdp) (w : World)
    : World :=
  match findPeer (from p) (peerConnections (hooks r)) with
  | Some peerConnection =>
      setConns (alter (setRemoteDescription a) (connection peerConnection)) w
  | None => w
  end.

(** [handleIceCandidate(payload)], with [payload.candidate] *)
Definition handleIceCandidate (r : Render) (p : Payload)
    (c : option Candidate) (w : World) : World :=
  match findPeer (from p) (peerConnections (hooks r)), c with
  | Some peerConnection, Some candidate =>
      setConns (alter (addIceCandidate candidate) (connection peerConnection))
               w
  | _, _ => w
  end.

(** The three [.on('broadcast', ...)] callbacks: [payload.to === user.id]
    guards the handler of the payload's event. *)
Definition onBroadcast (r : Render) (p : Payload) (w : World) : World :=
  if String.eqb (to p) (user r) then
    match body p with
    | offer o => handleOffer r p o w
    | answer a => handleAnswer r p a w
    | iceCandidate c => handleIceCandidate r p c w
    end
  else w.

(** ** Browser callbacks *)

(** The updater of [pc.ontrack] in [createPeerConnection]: the first entry
    of [userId] gets the stream, or a new entry is added. *)
Fixpoint withStream (u : Id) (pc : ConnId) (s : option StreamId)
    (prev : list PeerConnection) : list PeerConnection :=
  match prev with
  | [] => [mkPeer u pc s]
  | p :: rest =>
      if String.eqb (userId p) u
      then mkPeer (userId p) (connection p) s :: rest
      else p :: withStream u pc s rest
  end.

(** [pc.ontrack(event)], with [event.streams[0]] *)
Definition ontrack (pc : ConnId) (s : option StreamId) (w : World) : World :=
  match conns w !! pc with
  | Some c =>
      if cbRegisters c
      then setState (setPeerConnections (withStream (cbTo c) pc s)) w
      else w
  | None => w
  end.

(** [pc.onicecandidate(event)], with [event.candidate] *)
Definition onicecandidate (pc : ConnId) (cand : option Candidate) (w : World)
    : World :=
  match conns w !! pc, cand with
  | Some c, Some _ => send (mkPayload (cbTo c) (cbFrom c) (iceCandidate cand)) w
  | _, _ => w
  end.

(** The callback stored in [onended] of the shared video track. *)
Definition onendedCallback (w : World) : World :=
  setState (setScreenStream None) (setState (setIsScreenSharing false) w).

(** The browser ends track [t] (the user stopped sharing from the browser's
    own controls) and then fires its [ended] event. *)
Definition trackEnded (t : TrackId) (w : World) : World :=
  match tracks w !! t with
  | Some tr =>
      let w := setTracks (alter endTrack t) w in
      if onended tr then onendedCallback w else w
  | None => w
  end.

(** ** The mounted component

    The props, the world and the render whose broadcast callbacks are
    registered on the channel: [useEffect(..., [roomId, user])] subscribes
    with the callbacks of the render in which it runs, and runs again only
    when [roomId] or [user] changes.  Click handlers are bound anew by every
    render, so they see the current hook values. *)
Record Component := mkComponent {
  world : World;
  propUser : Id;
  propRoomId : string;
  propParticipants : list RoomParticipant;
  subscribed : option Render
}.

Definition render (c : Component) : Render :=
  mkRender (current (world c)) (propUser c) (propRoomId c)
           (propParticipants c).

Definition onWorld (f : World → World) (c : Component) : Component :=
  mkComponent (f (world c)) (propUser c) (propRoomId c) (propParticipants c)
              (subscribed c).

(** The effect: the cleanup removes the previous channel, and the body
    returns early for an empty [roomId]. *)
Definition useEffect (c : Component) : Component :=
  if String.eqb (propRoomId c) ""
  then mkComponent (world c) (propUser c) (propRoomId c) (propParticipants c)
                   None
  else
    let w := world c in
    mkComponent
      (mkWorld (current w) (tracks w) (streams w) (conns w)
               (Some (String.append "webrtc_" (propRoomId c))) (sent w))
      (propUser c) (propRoomId c) (propParticipants c) (Some (render c)).

Definition mount (u : Id) (room : string) (ps : list RoomParticipant)
    : Component :=
  useEffect (mkComponent (mkWorld initialState [] [] [] None []) u room ps None).

Inductive Event :=
| Roster (ps : list RoomParticipant)
| Room (room : string)
| ClickStartCall (m : UserMedia)
| ClickEndCall
| ClickToggleMute
| ClickToggleVideo (m : UserMedia)
| ClickToggleScreenShare (m : DisplayMedia)
| Broadcast (p : Payload)
| Track (pc : ConnId) (s : option StreamId)
| IceCandidate (pc : ConnId) (c : option Candidate)
| Ended (t : TrackId).

(** A new [participants] prop re-renders the component; no effect depends
    on it. *)
Definition setParticipants (ps : list RoomParticipant) (c : Component)
    : Component :=
  mkComponent (world c) (propUser c) (propRoomId c) ps (subscribed c).

Definition setRoom (room : string) (c : Component) : Component :=
  if String.eqb room (propRoomId c) then c
  else useEffect (mkComponent (world c) (propUser c) room (propParticipants c)
                              (subscribed c)).

(** The browser fires the events of a connection only while it is open. *)
Definition isOpen (pc : ConnId) (w : World) : bool :=
  match conns w !! pc with
  | Some c => negb (closed c)
  | None => false
  end.

(** One event.  The JSX shows the start button when [!isInCall] and the
    other four buttons otherwise. *)
Definition step (c : Component) (e : Event) : Component :=
  let r := render c in
  let inCall := isInCall (hooks r) in
  match e with
  | Roster ps => setParticipants ps c
  | Room room => setRoom room c
  | ClickStartCall m => if inCall then c else onWorld (startCall r m) c
  | ClickEndCall => if inCall then onWorld (endCall r) c else c
  | ClickToggleMute => if inCall then onWorld (toggleMute r) c else c
  | ClickToggleVideo m => if inCall then onWorld (toggleVideo r m) c else c
  | ClickToggleScreenShare m =>
      if inCall then onWorld (toggleScreenShare r m) c else c
  | Broadcast p =>
      match subscribed c with
      | Some r' => onWorld (onBroadcast r' p) c
      | None => c
      end
  | Track pc s => if isOpen pc (world c) then onWorld (ontrack pc s) c else c
  | IceCandidate pc cand =>
      if isOpen pc (world c) then onWorld (onicecandidate pc cand) c else c
  | Ended t => onWorld (trackEnded t) c
  end.

Definition run (c : Component) (es : list Event) : Component :=
  foldl step c es.


(** ** Vocabulary of the statements *)

(** *** endCall *)

Definition stoppedBy (o : option StreamId) (w : World)
    (ts : list MediaStreamTrack) : list MediaStreamTrack :=
  match o with
  | Some s => alterEach stopTrack id ts (getTracks w s)
  | None => ts
  end.


(** *** startCall *)

(** The remote ids [startCall] calls [createPeerConnection] for. *)
Definition others (r : Render) (ps : list RoomParticipant) : list Id :=
  List.filter (λ u, negb (String.eqb u (user r))) (user_id <$> ps).

Definition initiatedConn (r : Render) (l : list TrackId) (n i : nat) (u : Id)
    : RTCPeerConnection :=
  mkConn (Some <$> l) (Some (CreateOffer (n + i))) None [] false u (user r)
         true.

(** *** Screen sharing *)

(** Every track reference held by a stream or a sender is to an allocated
    track. *)
Definition allocated (w : World) (t : TrackId) : bool :=
  t <? length (tracks w).

Definition storeClosed (w : World) : bool :=
  forallb (forallb (allocated w)) (streams w) &&
  forallb (λ c, forallb (λ s, from_option (allocated w) true s) (senders c))
          (conns w).

(** The same, as a proposition. *)
Definition streamsOk (n : nat) (ss : list (list TrackId)) : Prop :=
  ∀ s l t, ss !! s = Some l → t ∈ l → t < n.

Definition connsOk (n : nat) (cs : list RTCPeerConnection) : Prop :=
  ∀ i c t, cs !! i = Some c → Some t ∈ senders c → t < n.

Definition sendersOk (n : nat) (c : RTCPeerConnection) : Prop :=
  ∀ t, Some t ∈ senders c → t < n.

Definition closedStore (w : World) : Prop :=
  streamsOk (length (tracks w)) (streams w) ∧
  connsOk (length (tracks w)) (conns w).

(** The track store while the sessions are visited by [toggleScreenShare],
    when sharing starts. *)
Definition tracksWhenShared (systemAudio : bool) (ts : list MediaStreamTrack)
    : list MediaStreamTrack :=
  if systemAudio
  then (ts ++ [freshTrack video]) ++ [freshTrack audio]
  else ts ++ [freshTrack video].

(** *** Sessions over a run *)

(** Every session of [w] is still a session of [w'], for the same id and
    with the same connection, and every connection of [w] is still there
    in [w'], closed if and only if it was. *)
Definition keptPeers (l l' : list PeerConnection) : Prop :=
  ∀ pc, pc ∈ l →
    ∃ pc', pc' ∈ l' ∧ userId pc' = userId pc ∧ connection pc' = connection pc.

Definition keptConns (cs cs' : list RTCPeerConnection) : Prop :=
  ∀ i c, cs !! i = Some c → ∃ c', cs' !! i = Some c' ∧ closed c' = closed c.

Definition sessionsKept (w w' : World) : Prop :=
  keptPeers (peerConnections (current w)) (peerConnections (current w')) ∧
  keptConns (conns w) (conns w').

(** *** Scenarios *)

(** The local user [alice] in a room with [bob] and [carol]. *)
Definition roster : list RoomParticipant :=
  [mkParticipant "alice" true; mkParticipant "bob" true;
   mkParticipant "carol" true].

Definition mounted : Component := mount "alice" "lobby" roster.

(** [alice] has joined the call. *)
Definition inCall : Component := run mounted [ClickStartCall granted].

(** [alice] has joined the call and turned her camera on. *)
Definition withCamera : Component :=
  run mounted [ClickStartCall granted; ClickToggleVideo granted].

(** [alice] shares her screen, with system audio, while the camera is on. *)
Definition sharing : Component :=
  run withCamera [ClickToggleScreenShare (shared true)].

(** [alice] alone in the room has joined the call. *)
Definition aloneInCall : Component :=
  run (mount "alice" "lobby" [mkParticipant "alice" true])
      [ClickStartCall granted].

Definition offerFromBob : Payload := mkPayload "alice" "bob" (offer (RemoteSdp 7)).

Definition candidateFromBob : Payload :=
  mkPayload "alice" "bob" (iceCandidate (Some 5)).

(** *** Invariants of the runs *)

(** The hook cells other than the session list. *)
Definition flags (st : ReactState)
    : bool * bool * bool * bool * option StreamId * option StreamId :=
  (isInCall st, isMuted st, isVideoOn st, isScreenSharing st,
   localStream st, screenStream st).

(** The flags agree with the held streams: in a call exactly when a local
    stream is held, sharing exactly when a screen stream is held, and no
    toggle is on outside a call. *)
Definition flagsConsistent (st : ReactState) : Prop :=
  (isInCall st = true ↔ is_Some (localStream st)) ∧
  (isScreenSharing st = true ↔ is_Some (screenStream st)) ∧
  (isInCall st = false →
     isMuted st = false ∧ isVideoOn st = false ∧ isScreenSharing st = false).

(** *** toggleVideo *)

(** What [localStream.removeTrack] leaves of a stream's tracks after the
    loop over the video tracks [vts]. *)
Definition removeTracks (vts l : list TrackId) : list TrackId :=
  foldl (λ l t, List.filter (λ t', negb (t' =? t)) l) l vts.

(** *** Sessions and their connections *)

(** The connections of [cs] are still there in [cs'], each with the
    variables its callbacks captured, and open or closed as it was. *)
Definition sameCallbacks (cs cs' : list RTCPeerConnection) : Prop :=
  ∀ i c, cs !! i = Some c →
    ∃ c', cs' !! i = Some c' ∧ cbTo c' = cbTo c ∧ cbFrom c' = cbFrom c ∧
          cbRegisters c' = cbRegisters c ∧ closed c' = closed c.

(** No connection belongs to two sessions, and the connection of a session
    exists and was made for that session's user id. *)
Definition sessionsWellFormed (w : World) : Prop :=
  NoDup (connection <$> peerConnections (current w)) ∧
  ∀ pc, pc ∈ peerConnections (current w) →
    ∃ c, conns w !! connection pc = Some c ∧ cbTo c = userId pc.

(** The handlers of the mute, camera and screen-share buttons and the end
    of a track change neither the session list nor the channel nor what
    was sent, and keep every connection with its callbacks. *)
Definition framed (w w' : World) : Prop :=
  peerConnections (current w') = peerConnections (current w) ∧
  sameCallbacks (conns w) (conns w') ∧
  sent w' = sent w ∧
  signalingChannel w' = signalingChannel w ∧
  length (conns w') = length (conns w).

(** An offer arrives on the channel. *)
Definition isOffer (e : Event) : bool :=
  match e with
  | Broadcast p => match body p with offer _ => true | _ => false end
  | _ => false
  end.

(** The effect runs again. *)
Definition isRoomChange (e : Event) : bool :=
  match e with Room _ => true | _ => false end.

Definition isBroadcast (e : Event) : bool :=
  match e with Broadcast _ => true | _ => false end.

(** The events whose handlers call [send]: a start of the call, an
    incoming offer, a local candidate. *)
Definition maySend (e : Event) : bool :=
  match e with
  | ClickStartCall _ | IceCandidate _ _ => true
  | _ => isOffer e
  end.

(** Everything sent, and every connection's [onicecandidate], names [u] as
    the sender; so does the subscribed render. *)
Definition sendsAs (u : Id) (c : Component) : Prop :=
  propUser c = u ∧
  (∀ r, subscribed c = Some r → user r = u) ∧
  Forall (λ p, from p = u) (sent (world c)) ∧
  Forall (λ x, cbFrom x = u) (conns (world c)).


(** *** The mute indicator *)

(** Every track of [ts] is still there in [ts'], of the same kind and with
    the same [enabled]. *)
Definition tracksKept (ts ts' : list MediaStreamTrack) : Prop :=
  ∀ t tr, ts !! t = Some tr →
    ∃ tr', ts' !! t = Some tr' ∧ kind tr' = kind tr ∧ enabled tr' = enabled tr.

(** The indicator shows the microphone as muted exactly when the first
    audio track of the local stream is disabled; without a local stream it
    shows it as not muted. *)
Definition muteMirrors (w : World) : Prop :=
  match localStream (current w) with
  | Some s =>
      ∃ t tr, head (getAudioTracks w s) = Some t ∧ tracks w !! t = Some tr ∧
              isMuted (current w) = negb (enabled tr)
  | None => isMuted (current w) = false
  end.

(** *** Connections left open *)



(** *** Capture left running *)



(** * Properties *)

(** ** The store under [forEach] loops *)

Section ForEach.
Context {A B : Type} (f : A → A) (key : B → nat).

Lemma alterEach_length xs : ∀ l, length (alterEach f key l xs) = length l.
Proof.
  induction xs as [|x xs IH]; intros l; simpl; [done|].
  rewrite IH. apply length_alter.
Qed.

Lemma alterEach_lookup_None xs l i :
  l !! i = None → alterEach f key l xs !! i = None.
Proof.
  rewrite !lookup_ge_None, alterEach_length. done.
Qed.

(** An object untouched by the loop is as before. *)
Lemma alterEach_lookup_notin xs : ∀ l i,
  i ∉ key <$> xs → alterEach f key l xs !! i = l !! i.
Proof.
  induction xs as [|x xs IH]; intros l i Hi; simpl; [done|].
  rewrite fmap_cons, not_elem_of_cons in Hi. destruct Hi as [Hne Hi].
  rewrite IH by done. by apply list_lookup_alter_ne.
Qed.

(** An object reached by the loop, once or several times, has had [f]
    applied, provided a second application changes nothing. *)
Lemma alterEach_lookup_in xs : ∀ l i a,
  l !! i = Some a → f (f a) = f a → i ∈ key <$> xs →
  alterEach f key l xs !! i = Some (f a).
Proof.
  induction xs as [|x xs IH]; intros l i a Hl Hf Hi; simpl.
  - by apply elem_of_nil in Hi.
  - rewrite fmap_cons in Hi.
    destruct (decide (key x = i)) as [E|Hne].
    + assert (Hx : alter f (key x) l !! i = Some (f a))
        by (by rewrite E, list_lookup_alter_eq, Hl).
      destruct (decide (i ∈ key <$> xs)) as [Hin|Hnin].
      * rewrite <- Hf. apply IH; [done|congruence|done].
      * by rewrite alterEach_lookup_notin.
    + apply elem_of_cons in Hi as [Hi|Hi]; [congruence|].
      apply IH; [|done|done].
      by rewrite list_lookup_alter_ne.
Qed.
End ForEach.

Lemma filter_head_true {A} (p : A → bool) l x l' :
  List.filter p l = x :: l' → p x = true.
Proof.
  intros E. assert (H : In x (List.filter p l)) by (rewrite E; now left).
  apply filter_In in H. tauto.
Qed.

Lemma list_alter_as_insert {A} (f : A → A) (l : list A) i a :
  l !! i = Some a → alter f i l = <[i := f a]> l.
Proof.
  revert i. induction l as [|x l IH]; intros [|i] H; simplify_eq/=; [done|].
  f_equal. by apply IH.
Qed.

(** ** toggleMute *)


Lemma alterEach_lookup_idem {A B} (f : A → A) (key : B → nat) xs l i a :
  l !! i = Some a → (∀ x, f (f x) = f x) →
  alterEach f key l xs !! i =
    Some (if bool_decide (i ∈ key <$> xs) then f a else a).
Proof.
  intros Hl Hf. case_bool_decide as Hin.
  - by apply alterEach_lookup_in.
  - by rewrite alterEach_lookup_notin.
Qed.

Lemma stopTrack_idem tr : stopTrack (stopTrack tr) = stopTrack tr.
Proof. done. Qed.


(** ** endCall *)

Lemma endCall_eq (r : Render) (w : World) :
  hooks r = current w →
  endCall r w =
    mkWorld initialState
      (stoppedBy (screenStream (hooks r)) w
         (stoppedBy (localStream (hooks r)) w (tracks w)))
      (streams w)
      (alterEach close connection (conns w) (peerConnections (hooks r)))
      (signalingChannel w) (sent w).
Proof.
  intros H. unfold endCall. rewrite !H.
  destruct w as [[? ? ? ? [?|] [?|] ?] ? ? ? ? ?]; reflexivity.
Qed.



(** ** Incoming broadcasts *)


Lemma addTracks_fields l : ∀ pc,
  addTracks l pc =
    mkConn (senders pc ++ (Some <$> l)) (localDescription pc)
           (remoteDescription pc) (addIceCandidateCalls pc) (closed pc)
           (cbTo pc) (cbFrom pc) (cbRegisters pc).
Proof.
  induction l as [|t l IH]; intros pc; simpl.
  - rewrite app_nil_r. by destruct pc.
  - rewrite IH. simpl. by rewrite <- app_assoc.
Qed.


(** ** ICE candidates *)

Lemma list_alter_same {A} (f : A → A) i (l : list A) :
  (∀ x, f x = x) → alter f i l = l.
Proof.
  intros Hf. revert i. induction l as [|x l IH]; intros [|i]; simpl; [done..| |].
  - by rewrite Hf.
  - f_equal. apply IH.
Qed.

(** C2, as the code has it.  Nothing is buffered.  For a sequence of
    ice-candidate broadcasts from one sender, addressed to the local user
    and handled by one render: if that render's session list has no entry
    for the sender, every candidate is dropped and the world is unchanged;
    otherwise every candidate is handed at once to [addIceCandidate] of the
    connection of the first such entry, whatever that connection's remote
    description is, so the connection receives them in arrival order. *)
Theorem iceCandidates_handed_over_on_arrival (r : Render) (w : World) (u : Id)
    (cands : list Candidate) :
  let deliver := λ w c,
    onBroadcast r (mkPayload (user r) u (iceCandidate (Some c))) w in
  let w' := foldl deliver w cands in
  match findPeer u (peerConnections (hooks r)) with
  | None => w' = w
  | Some pc =>
      current w' = current w ∧ tracks w' = tracks w ∧
      streams w' = streams w ∧ sent w' = sent w ∧
      ∀ c, conns w !! connection pc = Some c →
           conns w' =
             <[connection pc :=
                 mkConn (senders c) (localDescription c) (remoteDescription c)
                        (addIceCandidateCalls c ++ cands) (closed c)
                        (cbTo c) (cbFrom c) (cbRegisters c)]> (conns w)
  end.
Proof.
  intros deliver w'. subst w' deliver.
  assert (Hstep : ∀ w x,
    onBroadcast r (mkPayload (user r) u (iceCandidate (Some x))) w =
    match findPeer u (peerConnections (hooks r)) with
    | Some pc => setConns (alter (addIceCandidate x) (connection pc)) w
    | None => w
    end).
  { intros w0 x. unfold onBroadcast, handleIceCandidate. simpl.
    by rewrite String.eqb_refl. }
  revert w.
  destruct (findPeer u (peerConnections (hooks r))) as [pc|].
  - induction cands as [|x cands IH]; intros w.
    + simpl. split; [done|]. split; [done|]. split; [done|]. split; [done|].
      intros c Hc. rewrite app_nil_r, list_insert_id; [done|].
      rewrite Hc. by destruct c.
    + cbn [foldl]. rewrite Hstep.
      destruct (IH (setConns (alter (addIceCandidate x) (connection pc)) w))
        as (H1 & H2 & H3 & H4 & H5).
      rewrite H1, H2, H3, H4.
      split; [done|]. split; [done|]. split; [done|]. split; [done|].
      intros c Hc. rewrite (H5 (addIceCandidate x c)).
      * simpl. rewrite (list_alter_as_insert _ _ _ _ Hc).
        rewrite list_insert_insert_eq. by rewrite <- app_assoc.
      * simpl. by rewrite list_lookup_alter_eq, Hc.
  - induction cands as [|x cands IH]; intros w; [done|].
    cbn [foldl]. rewrite Hstep. apply IH.
Qed.

(** ** startCall *)

Lemma findPeer_None u l : findPeer u l = None ↔ u ∉ userId <$> l.
Proof.
  unfold findPeer. induction l as [|p l IH]; simpl.
  - split; [intros _; apply not_elem_of_nil|done].
  - rewrite not_elem_of_cons. destruct (String.eqb_spec (userId p) u) as [E|E].
    + split; [done|]. intros [H _]. by destruct H.
    + rewrite IH. split; [|tauto]. intros H. split; [congruence|done].
Qed.

Lemma createPeerConnection_initiator (r : Render) (u : Id) (s : StreamId)
    (ch : string) (w : World) :
  signalingChannel w = Some ch →
  createPeerConnection r u s true w =
    mkWorld
      (setPeerConnections
         (λ prev, match findPeer u prev with
                  | Some _ => prev
                  | None => prev ++ [mkPeer u (length (conns w)) None]
                  end) (current w))
      (tracks w) (streams w)
      (conns w ++ [initiatedConn r (getTracks w s) (length (conns w)) 0 u])
      (Some ch)
      (sent w ++ [mkPayload u (user r) (offer (CreateOffer (length (conns w))))]).
Proof.
  intros Hch. unfold createPeerConnection, send, initiatedConn.
  rewrite addTracks_fields, Nat.add_0_r.
  destruct w as [st ts ss cs c out]. simpl in *. subst c. reflexivity.
Qed.

Lemma startCall_loop (r : Render) (s : StreamId) (ch : string) ps : ∀ w,
  signalingChannel w = Some ch →
  NoDup (user_id <$> ps) →
  (∀ u, u ∈ others r ps → u ∉ userId <$> peerConnections (current w)) →
  let n := length (conns w) in
  let w' :=
    foldl (λ w participant,
             if negb (String.eqb (user_id participant) (user r))
             then createPeerConnection r (user_id participant) s true w
             else w) w ps in
  conns w' = conns w ++ imap (initiatedConn r (getTracks w s) n) (others r ps) ∧
  sent w' =
    sent w ++ imap (λ i u, mkPayload u (user r) (offer (CreateOffer (n + i))))
                   (others r ps) ∧
  current w' =
    setPeerConnections
      (λ prev, prev ++ imap (λ i u, mkPeer u (n + i) None) (others r ps))
      (current w) ∧
  tracks w' = tracks w ∧ streams w' = streams w.
Proof.
  induction ps as [|p ps IH]; intros w Hch Hnd Hfresh.
  - simpl. rewrite !app_nil_r. repeat split; try done.
    destruct (current w). unfold setPeerConnections. simpl.
    by rewrite app_nil_r.
  - apply NoDup_cons in Hnd as [Hp Hnd]. cbn [foldl].
    unfold others in *. cbn [fmap list_fmap List.filter] in *.
    destruct (negb (String.eqb (user_id p) (user r))) eqn:E.
    + assert (Hnone : findPeer (user_id p) (peerConnections (current w)) = None).
      { apply findPeer_None, Hfresh. by left. }
      rewrite (createPeerConnection_initiator r (user_id p) s ch w Hch).
      match goal with |- context [foldl _ ?x ps] => set (w1 := x) end.
      assert (Hcur : peerConnections (current w1) =
                       peerConnections (current w) ++
                         [mkPeer (user_id p) (length (conns w)) None]).
      { unfold w1. simpl. by rewrite Hnone. }
      destruct (IH w1 eq_refl Hnd) as (I1 & I2 & I3 & I4 & I5).
      { intros u Hu. rewrite Hcur, fmap_app, not_elem_of_app. split.
        - apply Hfresh. by right.
        - simpl. rewrite list_elem_of_singleton. intros ->.
          apply Hp. apply list_elem_of_In in Hu.
          apply filter_In in Hu as [Hu _]. by apply list_elem_of_In. }
      rewrite I1, I2, I3, I4, I5. clear I1 I2 I3 I4 I5.
      unfold setPeerConnections. rewrite Hcur. unfold w1. simpl.
      rewrite length_app. simpl.
      repeat split; try done.
      * rewrite <- app_assoc. simpl. do 2 f_equal.
        apply imap_ext. intros i x _. unfold initiatedConn. simpl.
        do 3 f_equal. lia.
      * rewrite <- app_assoc. simpl. rewrite Nat.add_0_r. do 2 f_equal.
        apply imap_ext. intros i x _. simpl. do 3 f_equal. lia.
      * f_equal. rewrite <- app_assoc. simpl. rewrite Nat.add_0_r.
        do 2 f_equal. apply imap_ext. intros i x _. simpl. f_equal. lia.
    + apply IH; try done.
Qed.

(** C5. [startCall] with no session yet and a roster without repeated
    ids: when the microphone is granted, one audio track is acquired,
    [isInCall] is set and [isMuted] cleared, and for every participant
    other than the local user, in roster order, exactly one connection is
    created that carries the audio track and has its own offer as local
    description, that offer is sent to the participant, and one session is
    entered; when the microphone is denied the world is unchanged. *)
Theorem startCall_initiates (r : Render) (w : World) (ch : string) :
  signalingChannel w = Some ch →
  peerConnections (current w) = [] →
  NoDup (user_id <$> participants r) →
  let n := length (conns w) in
  let t := length (tracks w) in
  let remote := others r (participants r) in
  startCall r denied w = w ∧
  let w' := startCall r granted w in
  tracks w' = tracks w ++ [freshTrack audio] ∧
  streams w' = streams w ++ [[t]] ∧
  current w' =
    mkState true false (isVideoOn (current w)) (isScreenSharing (current w))
            (Some (length (streams w))) (screenStream (current w))
            (imap (λ i u, mkPeer u (n + i) None) remote) ∧
  conns w' = conns w ++ imap (initiatedConn r [t] n) remote ∧
  sent w' =
    sent w ++ imap (λ i u, mkPayload u (user r) (offer (CreateOffer (n + i))))
                   remote.
Proof.
  intros Hch Hnil Hnd n t remote. split; [done|]. intros w'.
  subst w'. unfold startCall.
  set (w0 := setState (setIsMuted false) _).
  assert (H0 : w0 =
    mkWorld (mkState true false (isVideoOn (current w))
                     (isScreenSharing (current w)) (Some (length (streams w)))
                     (screenStream (current w)) [])
            (tracks w ++ [freshTrack audio]) (streams w ++ [[t]]) (conns w)
            (Some ch) (sent w)).
  { unfold w0. rewrite <- Hch, <- Hnil. by destruct w. }
  destruct (startCall_loop r (length (streams w)) ch (participants r) w0)
    as (I1 & I2 & I3 & I4 & I5).
  - by rewrite H0.
  - done.
  - intros u _. rewrite H0. simpl. apply not_elem_of_nil.
  - rewrite I1, I2, I3, I4, I5. rewrite H0. simpl.
    unfold getTracks. simpl. rewrite list_lookup_middle by done. done.
Qed.

(** ** Screen sharing *)



Lemma findIndex_lt {A} (p : A → bool) l : ∀ i,
  findIndex p l = Some i → i < length l.
Proof.
  induction l as [|x l IH]; intros i H; simpl in *; [done|].
  destruct (p x); simplify_eq; [lia|].
  destruct (findIndex p l) as [j|] eqn:Ej; simplify_eq/=.
  specialize (IH j eq_refl). lia.
Qed.

Lemma kindIs_alter (f : MediaStreamTrack → MediaStreamTrack) p ts i t :
  (∀ tr, kind (f tr) = kind tr) →
  kindIs p (alter f i ts) t = kindIs p ts t.
Proof.
  intros Hf. unfold kindIs. rewrite list_lookup_alter.
  destruct (decide (i = t)) as [->|]; [|done].
  destruct (ts !! t); simpl; [|done]. by rewrite Hf.
Qed.

Lemma kindIs_alterEach (f : MediaStreamTrack → MediaStreamTrack) p l t :
  (∀ tr, kind (f tr) = kind tr) →
  ∀ ts, kindIs p (alterEach f id ts l) t = kindIs p ts t.
Proof.
  intros Hf. induction l as [|x l IH]; intros ts; simpl; [done|].
  rewrite IH. by apply kindIs_alter.
Qed.


Lemma kindIs_lt p ts t : kindIs p ts t = true → t < length ts.
Proof.
  unfold kindIs. destruct (ts !! t) eqn:E; [|done].
  intros _. by apply lookup_lt_Some in E.
Qed.








Lemma toggleScreenShare_on (r : Render) (a : bool) (w : World) :
  isScreenSharing (hooks r) = false →
  toggleScreenShare r (shared a) w =
    mkWorld
      (setIsScreenSharing true
         (setScreenStream (Some (length (streams w))) (current w)))
      (alter setOnended (length (tracks w)) (tracksWhenShared a (tracks w)))
      (streams w ++
         [if a then [length (tracks w); S (length (tracks w))]
          else [length (tracks w)]])
      (alterEach (shareOn (tracksWhenShared a (tracks w)) (length (tracks w)))
                 connection (conns w) (peerConnections (hooks r)))
      (signalingChannel w) (sent w).
Proof.
  intros H. unfold toggleScreenShare. rewrite H. simpl.
  destruct w, a; reflexivity.
Qed.





(** ** No dangling track references *)

Lemma closedStore_spec w : storeClosed w = true ↔ closedStore w.
Proof.
  unfold storeClosed, closedStore, streamsOk, connsOk.
  rewrite andb_true_iff, !forallb_forall. split.
  - intros [H1 H2]. split.
    + intros s l t Hs Ht. apply list_elem_of_lookup_2, list_elem_of_In in Hs.
      specialize (H1 l Hs). rewrite forallb_forall in H1.
      apply list_elem_of_In in Ht. by apply Nat.ltb_lt, H1.
    + intros i c t Hc Ht. apply list_elem_of_lookup_2, list_elem_of_In in Hc.
      specialize (H2 c Hc). rewrite forallb_forall in H2.
      apply list_elem_of_In in Ht. by apply Nat.ltb_lt, (H2 (Some t)).
  - intros [H1 H2]. split.
    + intros l Hl. apply list_elem_of_In, list_elem_of_lookup in Hl as [s Hs].
      rewrite forallb_forall. intros t Ht. apply list_elem_of_In in Ht.
      apply Nat.ltb_lt. by eapply H1.
    + intros c Hc. apply list_elem_of_In, list_elem_of_lookup in Hc as [i Hi].
      rewrite forallb_forall. intros [t|] Ht; [|done].
      apply list_elem_of_In in Ht. apply Nat.ltb_lt. by eapply H2.
Qed.

Lemma streamsOk_mono n m ss : n ≤ m → streamsOk n ss → streamsOk m ss.
Proof. intros Hnm H s l t Hs Ht. specialize (H s l t Hs Ht). lia. Qed.

Lemma connsOk_mono n m cs : n ≤ m → connsOk n cs → connsOk m cs.
Proof. intros Hnm H i c t Hc Ht. specialize (H i c t Hc Ht). lia. Qed.

Lemma streamsOk_app n ss l :
  streamsOk n ss → (∀ t, t ∈ l → t < n) → streamsOk n (ss ++ [l]).
Proof.
  intros H Hl s l' t Hs Ht. apply lookup_app_Some in Hs as [Hs|[_ Hs]].
  - by eapply H.
  - apply list_lookup_singleton_Some in Hs as [_ <-]. by apply Hl.
Qed.

Lemma streamsOk_alter n ss f s :
  streamsOk n ss → (∀ l, (∀ t, t ∈ l → t < n) → ∀ t, t ∈ f l → t < n) →
  streamsOk n (alter f s ss).
Proof.
  intros H Hf s' l t Hs Ht. rewrite list_lookup_alter in Hs.
  destruct (decide (s = s')) as [->|]; [|by eapply H].
  destruct (ss !! s') as [l0|] eqn:E; simplify_eq/=.
  eapply Hf; [|done]. intros t' Ht'. by eapply H.
Qed.

Lemma connsOk_app n cs c : connsOk n cs → sendersOk n c → connsOk n (cs ++ [c]).
Proof.
  intros H Hc i c' t Hi Ht. apply lookup_app_Some in Hi as [Hi|[_ Hi]].
  - by eapply H.
  - apply list_lookup_singleton_Some in Hi as [_ <-]. by apply Hc.
Qed.

Lemma connsOk_alter n cs f i :
  connsOk n cs → (∀ c, sendersOk n c → sendersOk n (f c)) →
  connsOk n (alter f i cs).
Proof.
  intros H Hf j c t Hj Ht. rewrite list_lookup_alter in Hj.
  destruct (decide (i = j)) as [->|]; [|by eapply H].
  destruct (cs !! j) as [c0|] eqn:E; simplify_eq/=.
  eapply Hf; [|done]. intros t' Ht'. by eapply H.
Qed.

Lemma connsOk_alterEach {B} n f (key : B → nat) xs :
  (∀ c, sendersOk n c → sendersOk n (f c)) →
  ∀ cs, connsOk n cs → connsOk n (alterEach f key cs xs).
Proof.
  intros Hf. induction xs as [|x xs IH]; intros cs H; simpl; [done|].
  apply IH. by apply connsOk_alter.
Qed.

Lemma sendersOk_addTrack n t c :
  t < n → sendersOk n c → sendersOk n (addTrack t c).
Proof.
  intros Ht H t' Ht'. simpl in Ht'. apply elem_of_app in Ht' as [Ht'|Ht'].
  - by apply H.
  - apply list_elem_of_singleton in Ht'. by simplify_eq.
Qed.

Lemma sendersOk_replaceTrack n i t c :
  t < n → sendersOk n c → sendersOk n (replaceTrack i t c).
Proof.
  intros Ht H t' Ht'. simpl in Ht'.
  apply list_elem_of_lookup in Ht' as [j Hj].
  destruct (decide (i = j)) as [->|Hne].
  - destruct (decide (j < length (senders c))).
    + rewrite list_lookup_insert_eq in Hj by done. by simplify_eq.
    + rewrite list_insert_ge in Hj by lia.
      apply H. by eapply list_elem_of_lookup_2.
  - rewrite list_lookup_insert_ne in Hj by done.
    apply H. by eapply list_elem_of_lookup_2.
Qed.

Lemma sendersOk_addTracks n l : ∀ c,
  (∀ t, t ∈ l → t < n) → sendersOk n c → sendersOk n (addTracks l c).
Proof.
  induction l as [|t l IH]; intros c Hl Hc; simpl; [done|].
  apply IH.
  - intros t' Ht'. apply Hl. by right.
  - apply sendersOk_addTrack; [|done]. apply Hl. by left.
Qed.

Lemma sendersOk_same n c c' :
  senders c' = senders c → sendersOk n c → sendersOk n c'.
Proof. unfold sendersOk. by intros ->. Qed.

Lemma closedStore_getTracks w s t :
  closedStore w → t ∈ getTracks w s → t < length (tracks w).
Proof.
  intros [H _] Ht. unfold getTracks in Ht.
  destruct (streams w !! s) as [l|] eqn:E; simpl in Ht.
  - by eapply H.
  - by apply elem_of_nil in Ht.
Qed.

Lemma closedStore_intro w w' :
  length (tracks w) ≤ length (tracks w') →
  (closedStore w → streamsOk (length (tracks w')) (streams w')) →
  (closedStore w → connsOk (length (tracks w')) (conns w')) →
  closedStore w → closedStore w'.
Proof. intros _ H1 H2 H. split; auto. Qed.

Lemma sendersOk_newConn n u v b : sendersOk n (newConn u v b).
Proof. intros t Ht. simpl in Ht. by apply elem_of_nil in Ht. Qed.

Lemma createPeerConnection_closedStore r u s b w :
  closedStore w → closedStore (createPeerConnection r u s b w).
Proof.
  intros H. pose proof (closedStore_getTracks w s) as Hs.
  destruct H as [H1 H2]. unfold createPeerConnection, send.
  assert (Hc : sendersOk (length (tracks w))
                 (addTracks (getTracks w s) (newConn u (user r) true))).
  { apply sendersOk_addTracks; [|apply sendersOk_newConn].
    intros t Ht. apply Hs; [by split|done]. }
  destruct w as [st ts ss cs [ch|] out], b; (split; [exact H1|]);
    cbn in *; apply connsOk_app; try done;
    by eapply sendersOk_same.
Qed.

Lemma closedStore_foldl {B} (f : World → B → World) xs :
  (∀ w x, closedStore w → closedStore (f w x)) →
  ∀ w, closedStore w → closedStore (foldl f w xs).
Proof.
  intros Hf. induction xs as [|x xs IH]; intros w H; simpl; [done|].
  apply IH. by apply Hf.
Qed.

Lemma startCall_closedStore r m w :
  closedStore w → closedStore (startCall r m w).
Proof.
  intros [H1 H2]. unfold startCall. destruct m; [|by split].
  apply closedStore_foldl.
  - intros w' p H. destruct (negb _); [|done].
    by apply createPeerConnection_closedStore.
  - destruct w as [st ts ss cs ch out]. cbn in *. split; cbn.
    + rewrite length_app. simpl. apply streamsOk_app.
      * eapply streamsOk_mono; [|done]. lia.
      * intros t Ht. apply list_elem_of_singleton in Ht. lia.
    + rewrite length_app. eapply connsOk_mono; [|done]. lia.
Qed.

Lemma stoppedBy_length o w ts : length (stoppedBy o w ts) = length ts.
Proof. destruct o; simpl; [apply alterEach_length|done]. Qed.

Lemma endCall_closedStore r w :
  hooks r = current w → closedStore w → closedStore (endCall r w).
Proof.
  intros Hr [H1 H2]. rewrite (endCall_eq r w Hr). split; cbn.
  - by rewrite !stoppedBy_length.
  - rewrite !stoppedBy_length. by apply connsOk_alterEach.
Qed.

Lemma toggleMute_closedStore r w :
  closedStore w → closedStore (toggleMute r w).
Proof.
  intros [H1 H2]. unfold toggleMute.
  destruct (localStream (hooks r)); [|by split].
  destruct (getAudioTracks w _); [by split|].
  destruct (tracks w !! _); [|by split].
  destruct w. split; cbn in *; by rewrite length_alter.
Qed.

Lemma toggleVideo_closedStore r m w :
  closedStore w → closedStore (toggleVideo r m w).
Proof.
  intros H. unfold toggleVideo. destruct (negb (isVideoOn (hooks r))).
  - destruct m; [|done]. destruct H as [H1 H2].
    assert (Hs : streamsOk (S (length (tracks w)))
                   (streams w ++ [[length (tracks w)]])).
    { apply streamsOk_app; [eapply streamsOk_mono; [|done]; lia|].
      intros t Ht. apply list_elem_of_singleton in Ht. lia. }
    assert (Hc : connsOk (S (length (tracks w)))
                   (alterEach (addTrack (length (tracks w))) connection
                      (conns w) (peerConnections (hooks r)))).
    { apply connsOk_alterEach.
      - intros c Hc. apply sendersOk_addTrack; [lia|done].
      - eapply connsOk_mono; [|done]. lia. }
    destruct w as [st ts ss cs ch out], (localStream (hooks r)) as [s|];
      split; cbn in *; rewrite length_app, Nat.add_1_r; try done.
    apply streamsOk_alter; [done|].
    intros l Hl t Ht. apply elem_of_app in Ht as [Ht|Ht]; [by apply Hl|].
    apply list_elem_of_singleton in Ht. lia.
  - assert (H' : ∀ w', closedStore w' →
                       closedStore (setState (setIsVideoOn false) w'))
      by (by intros []).
    destruct (localStream (hooks r)) as [s|]; [|by apply H'].
    apply H'. apply closedStore_foldl; [|done].
    intros [st ts ss cs ch out] t [H1 H2]. split; cbn in *.
    + rewrite length_alter. apply streamsOk_alter; [done|].
      intros l Hl t' Ht'. apply Hl.
      apply list_elem_of_In in Ht'. apply filter_In in Ht' as [Ht' _].
      by apply list_elem_of_In.
    + by rewrite length_alter.
Qed.

Lemma sendersOk_shareOn n ts t c :
  t < n → sendersOk n c → sendersOk n (shareOn ts t c).
Proof.
  intros Ht H. unfold shareOn. destruct (findVideoSender ts c).
  - by apply sendersOk_replaceTrack.
  - by apply sendersOk_addTrack.
Qed.

Lemma sendersOk_shareOff n ts t c :
  (∀ x, t = Some x → x < n) → sendersOk n c → sendersOk n (shareOff ts t c).
Proof.
  intros Ht H. unfold shareOff. destruct (findVideoSender ts c), t; try done.
  apply sendersOk_replaceTrack; [|done]. by apply Ht.
Qed.

Lemma tracksWhenShared_length a ts :
  length ts < length (tracksWhenShared a ts) ∧
  (a = true → length (tracksWhenShared a ts) = S (S (length ts))).
Proof.
  unfold tracksWhenShared. destruct a; rewrite ?length_app; simpl; split;
    try lia; done.
Qed.

Lemma toggleScreenShare_closedStore r m w :
  closedStore w → closedStore (toggleScreenShare r m w).
Proof.
  intros [H1 H2]. destruct (isScreenSharing (hooks r)) eqn:E.
  - unfold toggleScreenShare. rewrite E. simpl.
    assert (Hstop : ∀ o, closedStore
              (match o with
               | Some s => setState (setScreenStream None)
                             (stopAll (getTracks w s) w)
               | None => w
               end)).
    { intros [s|]; [|by split]. destruct w. split; cbn in *.
      - by rewrite alterEach_length.
      - by rewrite alterEach_length. }
    specialize (Hstop (screenStream (hooks r))).
    set (w1 := match screenStream (hooks r) with Some _ => _ | None => _ end)
      in *.
    assert (H' : ∀ w', closedStore w' →
                       closedStore (setState (setIsScreenSharing false) w'))
      by (by intros []).
    apply H'. destruct (localStream (hooks r)) as [s|]; [|done].
    destruct (isVideoOn (hooks r)); [|done].
    destruct Hstop as [S1 S2]. destruct w1 as [st ts ss cs ch out] eqn:Ew.
    split; cbn in *; [done|].
    apply connsOk_alterEach; [|done].
    intros c Hc. apply sendersOk_shareOff; [|done].
    intros x Hx. unfold getVideoTracks in Hx. cbn in Hx.
    destruct (List.filter _ _) as [|y l] eqn:Ef; simplify_eq/=.
    apply filter_head_true in Ef. by apply kindIs_lt in Ef.
  - destruct m as [a|]; [|unfold toggleScreenShare; rewrite E; by split].
    rewrite (toggleScreenShare_on r a w E).
    destruct (tracksWhenShared_length a (tracks w)) as [L1 L2].
    split; cbn; rewrite length_alter.
    + apply streamsOk_app; [eapply streamsOk_mono; [|done]; lia|].
      intros t Ht. destruct a.
      * rewrite (L2 eq_refl).
        apply elem_of_cons in Ht as [->|Ht]; [lia|].
        apply list_elem_of_singleton in Ht. lia.
      * apply list_elem_of_singleton in Ht. lia.
    + apply connsOk_alterEach.
      * intros c Hc. by apply sendersOk_shareOn.
      * eapply connsOk_mono; [|done]. lia.
Qed.

Lemma onBroadcast_closedStore r p w :
  closedStore w → closedStore (onBroadcast r p w).
Proof.
  intros H. unfold onBroadcast. destruct (String.eqb _ _); [|done].
  destruct (body p) as [o|a|c].
  - unfold handleOffer, send. destruct (localStream (hooks r)) as [s|]; [|done].
    pose proof (λ t, closedStore_getTracks w s t H) as Hs. destruct H as [H1 H2].
    assert (Hc : sendersOk (length (tracks w))
                   (addTracks (getTracks w s) (newConn (from p) (user r) false))).
    { apply sendersOk_addTracks; [|apply sendersOk_newConn].
      intros t Ht. by apply Hs. }
    destruct w as [st ts ss cs [ch|] out]; (split; [exact H1|]);
      cbn in *; apply connsOk_app; try done; by eapply sendersOk_same.
  - unfold handleAnswer. destruct (findPeer _ _); [|done].
    destruct H as [H1 H2]. destruct w. split; [done|]. cbn in *.
    apply connsOk_alter; [done|]. intros c. by apply sendersOk_same.
  - unfold handleIceCandidate. destruct (findPeer _ _), c; try done.
    destruct H as [H1 H2]. destruct w. split; [done|]. cbn in *.
    apply connsOk_alter; [done|]. intros c. by apply sendersOk_same.
Qed.

Lemma closedStore_same w w' :
  length (tracks w') = length (tracks w) → streams w' = streams w →
  conns w' = conns w → closedStore w → closedStore w'.
Proof. unfold closedStore. by intros -> -> ->. Qed.

Lemma step_closedStore c e :
  closedStore (world c) → closedStore (world (step c e)).
Proof.
  intros H. destruct e; simpl; try done.
  - unfold setRoom, useEffect. destruct (String.eqb room _); simpl; [done|].
    destruct (String.eqb room ""); simpl; [done|].
    by apply (closedStore_same (world c)).
  - destruct (isInCall _); [done|by apply startCall_closedStore].
  - destruct (isInCall _); [|done]. by apply endCall_closedStore.
  - destruct (isInCall _); [by apply toggleMute_closedStore|done].
  - destruct (isInCall _); [by apply toggleVideo_closedStore|done].
  - destruct (isInCall _); [by apply toggleScreenShare_closedStore|done].
  - destruct (subscribed c); [by apply onBroadcast_closedStore|done].
  - destruct (isOpen _ _); [|done]. unfold ontrack. simpl.
    destruct (conns (world c) !! pc) as [x|]; [|done].
    destruct (cbRegisters x); [|done].
    apply (closedStore_same (world c)); try done; by destruct (world c).
  - destruct (isOpen _ _); [|done]. unfold onicecandidate, send. simpl.
    destruct (conns (world c) !! pc), c0; try done.
    destruct (world c) as [? ? ? ? [?|] ?]; done.
  - unfold trackEnded. simpl. destruct (tracks (world c) !! t) as [tr|]; [|done].
    destruct (onended tr); apply (closedStore_same (world c)); try done;
      destruct (world c); cbn; by rewrite ?length_alter.
Qed.

(** Every run of the mounted component keeps the store free of dangling
    track references, so the premise of the screen-share round trip holds
    in every state the component can reach. *)
Lemma run_storeClosed u room ps es :
  storeClosed (world (run (mount u room ps) es)) = true.
Proof.
  apply closedStore_spec.
  assert (H0 : closedStore (world (mount u room ps))).
  { unfold mount, useEffect. simpl.
    destruct (String.eqb room ""); split; intros i x t Hx; simpl in Hx;
      by rewrite lookup_nil in Hx. }
  revert H0. generalize (mount u room ps).
  induction es as [|e es IH]; intros c H; simpl; [done|].
  apply IH. by apply step_closedStore.
Qed.

(** ** Sessions and the roster *)

Lemma keptPeers_refl l : keptPeers l l.
Proof. intros pc H. by exists pc. Qed.

Lemma keptPeers_app l l' : keptPeers l (l ++ l').
Proof. intros pc H. exists pc. split; [|done]. apply elem_of_app. by left. Qed.

Lemma keptConns_refl cs : keptConns cs cs.
Proof. intros i c H. by exists c. Qed.

Lemma keptConns_app cs cs' : keptConns cs (cs ++ cs').
Proof.
  intros i c H. exists c. split; [|done]. by apply lookup_app_l_Some.
Qed.

Lemma keptConns_alter f i cs :
  (∀ c, closed (f c) = closed c) → keptConns cs (alter f i cs).
Proof.
  intros Hf j c H. rewrite list_lookup_alter.
  destruct (decide (i = j)) as [->|]; [|by exists c].
  rewrite H. simpl. by exists (f c).
Qed.

Lemma sessionsKept_refl w : sessionsKept w w.
Proof. split; [apply keptPeers_refl|apply keptConns_refl]. Qed.

Lemma sessionsKept_trans w1 w2 w3 :
  sessionsKept w1 w2 → sessionsKept w2 w3 → sessionsKept w1 w3.
Proof.
  intros [P1 C1] [P2 C2]. split.
  - intros pc H. destruct (P1 pc H) as (pc' & H' & E1 & E2).
    destruct (P2 pc' H') as (pc'' & H'' & E3 & E4).
    exists pc''. split; [done|]. split; congruence.
  - intros i c H. destruct (C1 i c H) as (c' & H' & E1).
    destruct (C2 i c' H') as (c'' & H'' & E2).
    exists c''. split; [done|congruence].
Qed.

Lemma keptConns_alterEach {B} f (key : B → nat) xs :
  (∀ c, closed (f c) = closed c) →
  ∀ cs, keptConns cs (alterEach f key cs xs).
Proof.
  intros Hf. induction xs as [|x xs IH]; intros cs; simpl.
  - apply keptConns_refl.
  - intros i c H.
    destruct (keptConns_alter f (key x) cs Hf i c H) as (c' & H' & E).
    destruct (IH _ i c' H') as (c'' & H'' & E').
    exists c''. split; [done|congruence].
Qed.

Lemma sessionsKept_foldl {B} (f : World → B → World) xs :
  (∀ w x, sessionsKept w (f w x)) → ∀ w, sessionsKept w (foldl f w xs).
Proof.
  intros Hf. induction xs as [|x xs IH]; intros w; simpl.
  - apply sessionsKept_refl.
  - eapply sessionsKept_trans; [apply Hf|apply IH].
Qed.

Lemma shareOn_closed ts t c : closed (shareOn ts t c) = closed c.
Proof. unfold shareOn. by destruct (findVideoSender ts c). Qed.

Lemma shareOff_closed ts t c : closed (shareOff ts t c) = closed c.
Proof. unfold shareOff. by destruct (findVideoSender ts c), t. Qed.

Lemma createPeerConnection_keeps r u s b w :
  sessionsKept w (createPeerConnection r u s b w).
Proof.
  assert (Hp : peerConnections (current (createPeerConnection r u s b w)) =
               match findPeer u (peerConnections (current w)) with
               | Some _ => peerConnections (current w)
               | None => peerConnections (current w) ++
                           [mkPeer u (length (conns w)) None]
               end).
  { unfold createPeerConnection, send.
    destruct w as [st ts ss cs [ch|] out], b; reflexivity. }
  assert (Hc : ∃ c, conns (createPeerConnection r u s b w) = conns w ++ [c]).
  { unfold createPeerConnection, send.
    destruct w as [st ts ss cs [ch|] out], b; eexists; reflexivity. }
  destruct Hc as [c Hc]. split.
  - rewrite Hp. destruct (findPeer _ _);
      [apply keptPeers_refl|apply keptPeers_app].
  - rewrite Hc. apply keptConns_app.
Qed.

Lemma sessionsKept_same w w' :
  peerConnections (current w') = peerConnections (current w) →
  conns w' = conns w → sessionsKept w w'.
Proof.
  intros H1 H2. unfold sessionsKept. rewrite H1, H2.
  split; [apply keptPeers_refl|apply keptConns_refl].
Qed.

Lemma startCall_keeps r m w : sessionsKept w (startCall r m w).
Proof.
  unfold startCall. destruct m; [|apply sessionsKept_refl].
  eapply sessionsKept_trans; [|apply sessionsKept_foldl].
  - apply sessionsKept_same; by destruct w.
  - intros w' p. destruct (negb _); [|apply sessionsKept_refl].
    apply createPeerConnection_keeps.
Qed.

Lemma toggleMute_keeps r w : sessionsKept w (toggleMute r w).
Proof.
  unfold toggleMute.
  destruct (localStream (hooks r)); [|apply sessionsKept_refl].
  destruct (getAudioTracks w _); [apply sessionsKept_refl|].
  destruct (tracks w !! _); [|apply sessionsKept_refl].
  apply sessionsKept_same; by destruct w.
Qed.

Lemma toggleVideo_keeps r m w : sessionsKept w (toggleVideo r m w).
Proof.
  unfold toggleVideo. destruct (negb (isVideoOn (hooks r))).
  - destruct m; [|apply sessionsKept_refl].
    split.
    + destruct w, (localStream (hooks r)); apply keptPeers_refl.
    + destruct w, (localStream (hooks r)); by apply keptConns_alterEach.
  - assert (H : ∀ w', sessionsKept w' (setState (setIsVideoOn false) w'))
      by (intros w'; apply sessionsKept_same; by destruct w').
    destruct (localStream (hooks r)); [|apply H].
    eapply sessionsKept_trans; [|apply H].
    apply sessionsKept_foldl. intros w' t.
    apply sessionsKept_same; by destruct w'.
Qed.

Lemma toggleScreenShare_keeps r m w : sessionsKept w (toggleScreenShare r m w).
Proof.
  unfold toggleScreenShare. destruct (negb (isScreenSharing (hooks r))).
  - destruct m as [a|]; [|apply sessionsKept_refl].
    split.
    + destruct w, a; apply keptPeers_refl.
    + destruct w, a; apply keptConns_alterEach; intros c; apply shareOn_closed.
  - split.
    + destruct w, (screenStream (hooks r)), (localStream (hooks r)),
        (isVideoOn (hooks r)); apply keptPeers_refl.
    + destruct w, (screenStream (hooks r)), (localStream (hooks r)),
        (isVideoOn (hooks r));
        apply keptConns_refl ||
        (apply keptConns_alterEach; intros c; apply shareOff_closed).
Qed.

Lemma onBroadcast_keeps r p w : sessionsKept w (onBroadcast r p w).
Proof.
  unfold onBroadcast. destruct (String.eqb _ _); [|apply sessionsKept_refl].
  destruct (body p) as [o|a|c].
  - unfold handleOffer, send.
    destruct (localStream (hooks r)); [|apply sessionsKept_refl].
    split.
    + destruct w as [st ts ss cs [ch|] out]; apply keptPeers_app.
    + destruct w as [st ts ss cs [ch|] out]; apply keptConns_app.
  - unfold handleAnswer. destruct (findPeer _ _); [|apply sessionsKept_refl].
    split; [destruct w; apply keptPeers_refl|].
    destruct w; by apply keptConns_alter.
  - unfold handleIceCandidate.
    destruct (findPeer _ _), c; try apply sessionsKept_refl.
    split; [destruct w; apply keptPeers_refl|].
    destruct w; by apply keptConns_alter.
Qed.

Lemma withStream_keeps u pc s l : keptPeers l (withStream u pc s l).
Proof.
  induction l as [|p l IH]; intros q Hq; simpl.
  - by apply elem_of_nil in Hq.
  - apply elem_of_cons in Hq as [->|Hq].
    + destruct (String.eqb (userId p) u).
      * eexists. split; [by left|done].
      * exists p. split; [by left|done].
    + destruct (String.eqb (userId p) u).
      * exists q. split; [by right|done].
      * destruct (IH q Hq) as (q' & H' & E). exists q'. split; [by right|done].
Qed.

Lemma ontrack_keeps pc s w : sessionsKept w (ontrack pc s w).
Proof.
  unfold ontrack. destruct (conns w !! pc) as [c|]; [|apply sessionsKept_refl].
  destruct (cbRegisters c); [|apply sessionsKept_refl].
  split; [destruct w; apply withStream_keeps|destruct w; apply keptConns_refl].
Qed.

Lemma onicecandidate_keeps pc c w : sessionsKept w (onicecandidate pc c w).
Proof.
  unfold onicecandidate, send.
  destruct (conns w !! pc), c; try apply sessionsKept_refl.
  destruct w as [? ? ? ? [?|] ?]; apply sessionsKept_same; reflexivity.
Qed.

Lemma trackEnded_keeps t w : sessionsKept w (trackEnded t w).
Proof.
  unfold trackEnded. destruct (tracks w !! t) as [tr|];
    [|apply sessionsKept_refl].
  destruct (onended tr); apply sessionsKept_same; by destruct w.
Qed.

Lemma step_keeps c e : e ≠ ClickEndCall → sessionsKept (world c) (world (step c e)).
Proof.
  intros He. destruct e; simpl; try done.
  - apply sessionsKept_refl.
  - unfold setRoom, useEffect. destruct (String.eqb room _); simpl;
      [apply sessionsKept_refl|].
    destruct (String.eqb room ""); simpl;
      [apply sessionsKept_refl|by apply sessionsKept_same].
  - destruct (isInCall _); [apply sessionsKept_refl|apply startCall_keeps].
  - destruct (isInCall _); [apply toggleMute_keeps|apply sessionsKept_refl].
  - destruct (isInCall _); [apply toggleVideo_keeps|apply sessionsKept_refl].
  - destruct (isInCall _); [apply toggleScreenShare_keeps|apply sessionsKept_refl].
  - destruct (subscribed c); [apply onBroadcast_keeps|apply sessionsKept_refl].
  - destruct (isOpen _ _); [apply ontrack_keeps|apply sessionsKept_refl].
  - destruct (isOpen _ _); [apply onicecandidate_keeps|apply sessionsKept_refl].
  - apply trackEnded_keeps.
Qed.

(** C3, as the code has it.  The session list does not follow the roster.
    A roster snapshot replaces the [participants] prop and nothing else,
    and along every sequence of events without a click on the end-call
    button every session stays in the list with its connection, and every
    connection stays closed or open as it was.  In particular a session
    whose participant has left the roster stays, with its connection
    open; the other sessions stay as well. *)
Theorem sessions_outlive_roster (c : Component) (es : list Event) :
  ClickEndCall ∉ es →
  (∀ ps, world (step c (Roster ps)) = world c ∧
         subscribed (step c (Roster ps)) = subscribed c ∧
         propParticipants (step c (Roster ps)) = ps) ∧
  sessionsKept (world c) (world (run c es)).
Proof.
  intros Hes. split; [done|]. revert c.
  induction es as [|e es IH]; intros c; simpl.
  - apply sessionsKept_refl.
  - apply not_elem_of_cons in Hes as [He Hes].
    eapply sessionsKept_trans; [apply step_keeps; intros E; by apply He|].
    by apply IH.
Qed.

(** ** Where the code departs from the specification *)

(** C1, at a failing input.  [alice] has started a call, so a session for
    [bob] exists, made by [createPeerConnection]; then an offer from [bob]
    is handled by a render that holds the local stream.  [handleOffer]
    appends without looking for an entry of the same id, and the list has
    two sessions for [bob], on two connections.  The same happens in the
    run of the component in which the broadcast callbacks were registered
    again during the call (the room changed). *)
Theorem handleOffer_duplicates_session :
  (userId <$> peerConnections (current (world inCall))) = ["bob"; "carol"] ∧
  peerConnections
    (current (onBroadcast (render inCall) offerFromBob (world inCall))) =
    [mkPeer "bob" 0 None; mkPeer "carol" 1 None; mkPeer "bob" 2 None] ∧
  (userId <$> peerConnections
     (current (world (run inCall [Room "hall"; Broadcast offerFromBob])))) =
    ["bob"; "carol"; "bob"].
Proof. vm_compute. repeat split; reflexivity. Qed.

(** C2 fails.  [alice] is in a call and has no session for [bob].  A
    candidate from [bob] arrives: the world is unchanged, the candidate is
    kept nowhere.  Then [bob]'s offer arrives: his session is created and
    its connection has the remote description set, but the candidate is
    never handed to it. *)
Lemma early_candidate_is_lost :
  let r := render aloneInCall in
  let w1 := onBroadcast r candidateFromBob (world aloneInCall) in
  let w2 := onBroadcast r offerFromBob w1 in
  w1 = world aloneInCall ∧
  ¬ (∀ pc c, findPeer "bob" (peerConnections (current w2)) = Some pc →
             conns w2 !! connection pc = Some c →
             remoteDescription c ≠ None →
             5 ∈ addIceCandidateCalls c).
Proof.
  split; [reflexivity|]. intros H.
  specialize (H (mkPeer "bob" 0 None) _ eq_refl eq_refl).
  simpl in H. apply (elem_of_nil 5), H. discriminate.
Qed.

(** C3 fails.  [alice] has started a call with [bob] and [carol]; a roster
    snapshot without [bob] arrives.  The session for [bob] is still in the
    list and its connection is not closed. *)
Lemma session_stays_after_participant_left :
  let c := run inCall [Roster [mkParticipant "alice" true;
                               mkParticipant "carol" true]] in
  ("bob" ∉ user_id <$> propParticipants c) ∧
  ∃ pc conn, pc ∈ peerConnections (current (world c)) ∧ userId pc = "bob" ∧
             conns (world c) !! connection pc = Some conn ∧
             closed conn = false.
Proof.
  split.
  - simpl. rewrite !not_elem_of_cons. repeat split; try discriminate.
    apply not_elem_of_nil.
  - exists (mkPeer "bob" 0 None). eexists. split; [by left|].
    split; [reflexivity|]. split; reflexivity.
Qed.

(** C8, at a failing input.  [alice] shares her screen while her camera
    (track 1) is on; the screen stream has the video track 2 and the audio
    track 3.  When the browser ends track 2, the [onended] callback clears
    the flag and the stream cell, as the explicit toggle does, but the
    video senders of both connections keep the ended screen track instead
    of getting the camera track back. *)
Theorem onended_does_less_than_toggle_off :
  let browser := world (step sharing (Ended 2)) in
  let toggle := world (step sharing (ClickToggleScreenShare cancelled)) in
  current browser = current toggle ∧
  isScreenSharing (current browser) = false ∧
  screenStream (current browser) = None ∧
  (senders <$> conns toggle) = [[Some 0; Some 1]; [Some 0; Some 1]] ∧
  (senders <$> conns browser) = [[Some 0; Some 2]; [Some 0; Some 2]] ∧
  browser ≠ toggle.
Proof. vm_compute. repeat split; try reflexivity. discriminate. Qed.

(** ** The theorems at concrete inputs *)

Lemma hooks_render c : hooks (render c) = current (world c).
Proof. reflexivity. Qed.




(** Three candidates from [bob] reach [alice], who has a session for him
    that has sent its offer and has no remote description yet. *)
Lemma iceCandidates_handed_over_on_arrival_witness :
  let r := render inCall in
  let deliver := λ w c,
    onBroadcast r (mkPayload (user r) "bob" (iceCandidate (Some c))) w in
  findPeer "bob" (peerConnections (hooks r)) = Some (mkPeer "bob" 0 None) ∧
  conns (foldl deliver (world inCall) [4; 5; 6]) !! 0 =
    Some (mkConn [Some 0] (Some (CreateOffer 0)) None [4; 5; 6] false
                 "bob" "alice" true).
Proof.
  cbv zeta.
  assert (E : findPeer "bob" (peerConnections (hooks (render inCall))) =
              Some (mkPeer "bob" 0 None)) by (vm_compute; reflexivity).
  split; [exact E|].
  pose proof (iceCandidates_handed_over_on_arrival (render inCall)
                (world inCall) "bob" [4; 5; 6]) as H.
  cbv zeta in H. rewrite E in H. destruct H as (_ & _ & _ & _ & H).
  rewrite (H (mkConn [Some 0] (Some (CreateOffer 0)) None [] false
                     "bob" "alice" true))
    by (vm_compute; reflexivity).
  vm_compute. reflexivity.
Defined.

(** [alice] joins the call from the freshly mounted component. *)
Lemma startCall_initiates_witness :
  signalingChannel (world mounted) = Some "webrtc_lobby" ∧
  peerConnections (current (world mounted)) = [] ∧
  NoDup (user_id <$> participants (render mounted)) ∧
  let w' := startCall (render mounted) granted (world mounted) in
  peerConnections (current w') = [mkPeer "bob" 0 None; mkPeer "carol" 1 None] ∧
  sent w' = [mkPayload "bob" "alice" (offer (CreateOffer 0));
             mkPayload "carol" "alice" (offer (CreateOffer 1))].
Proof.
  assert (H1 : signalingChannel (world mounted) = Some "webrtc_lobby")
    by (vm_compute; reflexivity).
  assert (H2 : peerConnections (current (world mounted)) = [])
    by (vm_compute; reflexivity).
  assert (Hnd : NoDup (user_id <$> participants (render mounted))).
  { vm_compute. repeat (apply NoDup_cons; split);
      rewrite ?not_elem_of_cons; repeat split;
      try discriminate; try apply not_elem_of_nil. apply NoDup_nil_2. }
  split; [exact H1|]. split; [exact H2|]. split; [exact Hnd|].
  pose proof (startCall_initiates (render mounted) (world mounted)
                "webrtc_lobby" H1 H2 Hnd) as H.
  vm_compute in H. vm_compute. destruct H as (_ & _ & _ & H3 & _ & H5).
  split; [reflexivity|exact H5].
Defined.


(** Two roster snapshots, a mute toggle and an offer during [alice]'s
    call. *)
Lemma sessions_outlive_roster_witness :
  let es := [Roster [mkParticipant "alice" true]; ClickToggleMute;
             Broadcast offerFromBob; Roster []] in
  (ClickEndCall ∉ es) ∧
  sessionsKept (world inCall) (world (run inCall es)).
Proof.
  assert (H : ClickEndCall ∉ [Roster [mkParticipant "alice" true];
                              ClickToggleMute; Broadcast offerFromBob;
                              Roster []]).
  { rewrite !not_elem_of_cons. repeat split; try discriminate.
    apply not_elem_of_nil. }
  split; [exact H|].
  exact (proj2 (sessions_outlive_roster inCall _ H)).
Defined.

(** * Further properties of the component *)

(** ** Loops and hook cells *)

Lemma foldl_inv {B} (P : World → Prop) (f : World → B → World) xs :
  (∀ w x, P w → P (f w x)) → ∀ w, P w → P (foldl f w xs).
Proof.
  intros Hf. induction xs as [|x xs IH]; intros w H; simpl; [done|].
  apply IH. by apply Hf.
Qed.

Lemma flags_createPeerConnection r u s b w :
  flags (current (createPeerConnection r u s b w)) = flags (current w).
Proof.
  unfold createPeerConnection, send.
  destruct w as [st ts ss cs [ch|] out], b; reflexivity.
Qed.

Lemma flags_startCall r w :
  flags (current (startCall r granted w)) =
    (true, false, isVideoOn (current w), isScreenSharing (current w),
     Some (length (streams w)), screenStream (current w)).
Proof.
  unfold startCall.
  apply (foldl_inv (λ w', flags (current w') = _)).
  - intros w' p H. destruct (negb _); [|done].
    by rewrite flags_createPeerConnection.
  - by destruct w.
Qed.

Lemma flags_onBroadcast r p w :
  flags (current (onBroadcast r p w)) = flags (current w).
Proof.
  unfold onBroadcast. destruct (String.eqb _ _); [|done].
  destruct (body p) as [o|a|c].
  - unfold handleOffer, send. destruct (localStream (hooks r)); [|done].
    by destruct w as [st ts ss cs [ch|] out].
  - unfold handleAnswer. destruct (findPeer _ _); [|done]. by destruct w.
  - unfold handleIceCandidate. destruct (findPeer _ _), c; by destruct w.
Qed.

Lemma flags_ontrack pc s w : flags (current (ontrack pc s w)) = flags (current w).
Proof.
  unfold ontrack. destruct (conns w !! pc) as [c|]; [|done].
  destruct (cbRegisters c); [|done]. by destruct w.
Qed.

Lemma flags_onicecandidate pc c w :
  flags (current (onicecandidate pc c w)) = flags (current w).
Proof.
  unfold onicecandidate, send.
  destruct (conns w !! pc), c; by destruct w as [? ? ? ? [?|] ?].
Qed.

Lemma current_toggleVideo_off r w :
  isVideoOn (hooks r) = true →
  current (toggleVideo r denied w) = setIsVideoOn false (current w) ∧
  ∀ m, toggleVideo r m w = toggleVideo r denied w.
Proof.
  intros H. unfold toggleVideo. rewrite H. simpl. split; [|done].
  destruct (localStream (hooks r)) as [s|]; [|by destruct w].
  simpl. f_equal. apply (foldl_inv (λ w', current w' = current w)); [|done].
  intros w' t <-. by destruct w'.
Qed.

Lemma flagsConsistent_ext st st' :
  flags st' = flags st → flagsConsistent st → flagsConsistent st'.
Proof.
  unfold flags, flagsConsistent. intros E.
  injection E as E1 E2 E3 E4 E5 E6. by rewrite E1, E2, E3, E4, E5, E6.
Qed.

Ltac flags_auto :=
  unfold flagsConsistent in *; simpl in *; subst;
  intuition (eauto; try congruence; try discriminate;
             try match goal with H : is_Some None |- _ => by destruct H end).

Lemma startCall_flagsConsistent r m w :
  flagsConsistent (current w) → flagsConsistent (current (startCall r m w)).
Proof.
  intros H. destruct m; [|exact H]. destruct H as (H1 & H2 & H3).
  apply (flagsConsistent_ext
           (mkState true false (isVideoOn (current w))
                    (isScreenSharing (current w)) (Some (length (streams w)))
                    (screenStream (current w)) []));
    [apply flags_startCall|].
  flags_auto.
Qed.

Lemma toggleMute_flagsConsistent r w :
  hooks r = current w →
  flagsConsistent (current w) → flagsConsistent (current (toggleMute r w)).
Proof.
  intros Hr H. pose proof H as (H1 & H2 & H3). unfold toggleMute. rewrite Hr.
  destruct (localStream (current w)) eqn:E; [|exact H].
  destruct (getAudioTracks _ _); [exact H|].
  destruct (tracks _ !! _); [|exact H].
  assert (Hin : isInCall (current w) = true) by (apply H1; eauto).
  destruct w as [[] ? ? ? ? ?]. flags_auto.
Qed.

Lemma toggleVideo_flagsConsistent r m w :
  hooks r = current w → isInCall (current w) = true →
  flagsConsistent (current w) → flagsConsistent (current (toggleVideo r m w)).
Proof.
  intros Hr Hin H. pose proof H as (H1 & H2 & H3).
  destruct (isVideoOn (hooks r)) eqn:Ev.
  - destruct (current_toggleVideo_off r w Ev) as [Hc Hm].
    rewrite (Hm m), Hc. destruct (current w). flags_auto.
  - unfold toggleVideo. rewrite Ev. simpl. destruct m; [|exact H].
    rewrite Hr. destruct w as [[? ? ? ? [?|] ? ?] ? ? ? ? ?]; flags_auto.
Qed.

Lemma current_toggleScreenShare_off r m w :
  hooks r = current w → isScreenSharing (current w) = true →
  current (toggleScreenShare r m w) =
    setIsScreenSharing false (setScreenStream None (current w)).
Proof.
  intros Hr Hs. unfold toggleScreenShare. rewrite !Hr, Hs.
  destruct w as [[? ? [|] ? [?|] [?|] ?] ? ? ? ? ?]; reflexivity.
Qed.

Lemma toggleScreenShare_flagsConsistent r m w :
  hooks r = current w → isInCall (current w) = true →
  flagsConsistent (current w) →
  flagsConsistent (current (toggleScreenShare r m w)).
Proof.
  intros Hr Hin H. pose proof H as (H1 & H2 & H3).
  destruct (isScreenSharing (current w)) eqn:Es.
  - rewrite (current_toggleScreenShare_off r m w Hr Es).
    destruct (current w). flags_auto.
  - unfold toggleScreenShare. rewrite !Hr, Es. simpl.
    destruct m as [a|]; [|exact H].
    destruct w as [[] ? ? ? ? ?], a; flags_auto.
Qed.

Lemma trackEnded_flagsConsistent t w :
  flagsConsistent (current w) → flagsConsistent (current (trackEnded t w)).
Proof.
  intros H. pose proof H as (H1 & H2 & H3). unfold trackEnded.
  destruct (tracks _ !! t) as [tr|]; [|exact H].
  destruct (onended tr); destruct w as [[] ? ? ? ? ?]; flags_auto.
Qed.

Lemma initialState_flagsConsistent : flagsConsistent initialState.
Proof. flags_auto. Qed.

Lemma world_setRoom room c :
  world (setRoom room c) = world c ∨
  world (setRoom room c) =
    mkWorld (current (world c)) (tracks (world c)) (streams (world c))
            (conns (world c)) (Some (String.append "webrtc_" room))
            (sent (world c)).
Proof.
  unfold setRoom, useEffect. destruct (String.eqb room _); [by left|].
  simpl. destruct (String.eqb room ""); [by left|by right].
Qed.

Lemma current_setRoom room c :
  current (world (setRoom room c)) = current (world c).
Proof. by destruct (world_setRoom room c) as [->| ->]. Qed.

Arguments startCall : simpl never.
Arguments endCall : simpl never.
Arguments toggleMute : simpl never.
Arguments toggleVideo : simpl never.
Arguments toggleScreenShare : simpl never.
Arguments onBroadcast : simpl never.
Arguments ontrack : simpl never.
Arguments onicecandidate : simpl never.
Arguments trackEnded : simpl never.
Arguments setRoom : simpl never.
Arguments render : simpl never.

Ltac step_cases e :=
  destruct e; unfold step, onWorld, setParticipants; cbn [world];
  repeat match goal with
    | |- context [if ?b then _ else _] => destruct b eqn:?; cbn [world]
    | |- context [match subscribed ?c with _ => _ end] =>
        destruct (subscribed c) eqn:?; cbn [world]
    end.

Lemma flagsConsistent_step c e :
  flagsConsistent (current (world c)) →
  flagsConsistent (current (world (step c e))).
Proof.
  intros H. step_cases e; try exact H.
  - by rewrite current_setRoom.
  - by apply startCall_flagsConsistent.
  - rewrite (endCall_eq _ _ (hooks_render c)).
    apply initialState_flagsConsistent.
  - by apply toggleMute_flagsConsistent; [apply hooks_render|].
  - by apply toggleVideo_flagsConsistent; [apply hooks_render|..].
  - by apply toggleScreenShare_flagsConsistent; [apply hooks_render|..].
  - eapply flagsConsistent_ext; [apply flags_onBroadcast|done].
  - eapply flagsConsistent_ext; [apply flags_ontrack|done].
  - eapply flagsConsistent_ext; [apply flags_onicecandidate|done].
  - by apply trackEnded_flagsConsistent.
Qed.


(** ** toggleVideo *)

Lemma alterEach_lookup_once {A B} (f : A → A) (key : B → nat) xs : ∀ l i a,
  NoDup (key <$> xs) → i ∈ key <$> xs → l !! i = Some a →
  alterEach f key l xs !! i = Some (f a).
Proof.
  induction xs as [|x xs IH]; intros l i a Hnd Hi Hl; simpl.
  - by apply elem_of_nil in Hi.
  - rewrite fmap_cons in Hnd, Hi. apply NoDup_cons in Hnd as [Hx Hnd].
    apply elem_of_cons in Hi as [->|Hi].
    + rewrite alterEach_lookup_notin by done.
      by rewrite list_lookup_alter_eq, Hl.
    + apply IH; [done..|]. rewrite list_lookup_alter_ne; [done|].
      intros E. apply Hx. by rewrite E.
Qed.

Lemma toggleVideo_on_eq (r : Render) (w : World) (s : StreamId) :
  isVideoOn (hooks r) = false → localStream (hooks r) = Some s →
  toggleVideo r granted w =
    mkWorld (setIsVideoOn true (current w))
            (tracks w ++ [freshTrack video])
            (alter (λ ts, ts ++ [length (tracks w)]) s
                   (streams w ++ [[length (tracks w)]]))
            (alterEach (addTrack (length (tracks w))) connection (conns w)
                       (peerConnections (hooks r)))
            (signalingChannel w) (sent w).
Proof.
  intros Hv Hs. unfold toggleVideo. rewrite Hv, Hs. by destruct w.
Qed.

(** X2. The camera is turned on during a call (the local stream is held,
    no connection is shared by two sessions).  A denied camera changes
    nothing.  A granted one adds one live video track at the end of the
    local stream and one sender carrying it at the end of every session's
    connection; no session is added or removed and nothing is sent, so no
    offer tells the remote side about the new track. *)
Theorem toggleVideo_on_attaches_camera (r : Render) (w : World)
    (s : StreamId) (l : list TrackId) :
  hooks r = current w →
  isVideoOn (current w) = false →
  localStream (current w) = Some s →
  streams w !! s = Some l →
  NoDup (connection <$> peerConnections (current w)) →
  let videoTrack := length (tracks w) in
  toggleVideo r denied w = w ∧
  let w' := toggleVideo r granted w in
  tracks w' = tracks w ++ [freshTrack video] ∧
  streams w' !! s = Some (l ++ [videoTrack]) ∧
  current w' = setIsVideoOn true (current w) ∧
  sent w' = sent w ∧
  length (conns w') = length (conns w) ∧
  (∀ pc c, pc ∈ peerConnections (current w) →
           conns w !! connection pc = Some c →
           conns w' !! connection pc = Some (addTrack videoTrack c)) ∧
  (∀ i, i ∉ connection <$> peerConnections (current w) →
        conns w' !! i = conns w !! i).
Proof.
  intros Hr Hv Hs Hl Hnd vt. split.
  { unfold toggleVideo. by rewrite Hr, Hv. }
  intros w'. subst w'.
  rewrite (toggleVideo_on_eq r w s) by (by rewrite Hr). rewrite Hr. simpl.
  split; [done|]. split.
  { rewrite list_lookup_alter_eq.
    by rewrite lookup_app_l, Hl by (by eapply lookup_lt_Some). }
  split; [done|]. split; [done|]. split; [apply alterEach_length|]. split.
  - intros pc c Hpc Hc. apply alterEach_lookup_once; [done| |done].
    by apply list_elem_of_fmap_2.
  - intros i Hi. by apply alterEach_lookup_notin.
Qed.

Lemma elem_of_removeTracks vts : ∀ l x,
  x ∈ removeTracks vts l ↔ x ∈ l ∧ x ∉ vts.
Proof.
  induction vts as [|t vts IH]; intros l x; simpl.
  - split; [intros H; split; [done|apply not_elem_of_nil]|tauto].
  - rewrite IH, not_elem_of_cons.
    rewrite !list_elem_of_In, filter_In, <- !list_elem_of_In.
    rewrite negb_true_iff, Nat.eqb_neq. tauto.
Qed.

Lemma filter_removeTracks (p : TrackId → bool) vts : ∀ l,
  (∀ t, t ∈ vts → p t = false) →
  List.filter p (removeTracks vts l) = List.filter p l.
Proof.
  induction vts as [|t vts IH]; intros l H; simpl; [done|].
  rewrite IH by (intros t' Ht'; apply H; by right).
  assert (Ht : p t = false) by (apply H; by left).
  clear -Ht. induction l as [|x l IHl]; simpl; [done|].
  destruct (Nat.eqb_spec x t) as [->|Hne]; simpl.
  - by rewrite Ht.
  - destruct (p x); by rewrite IHl.
Qed.

Lemma filter_nil_iff {A} (p : A → bool) l :
  (∀ x, x ∈ l → p x = false) → List.filter p l = [].
Proof.
  induction l as [|x l IH]; intros H; simpl; [done|].
  rewrite (H x) by (by left). apply IH. intros y Hy. apply H. by right.
Qed.

Lemma toggleVideo_off_eq (r : Render) (m : UserMedia) (w : World)
    (s : StreamId) :
  isVideoOn (hooks r) = true → localStream (hooks r) = Some s →
  toggleVideo r m w =
    mkWorld (setIsVideoOn false (current w))
            (alterEach stopTrack id (tracks w) (getVideoTracks w s))
            (alter (removeTracks (getVideoTracks w s)) s (streams w))
            (conns w) (signalingChannel w) (sent w).
Proof.
  intros Hv Hs. unfold toggleVideo. rewrite Hv, Hs. simpl.
  generalize (getVideoTracks w s). intros vts. revert w.
  induction vts as [|t vts IH]; intros w.
  - simpl. rewrite list_alter_same by done. by destruct w.
  - cbn [foldl]. rewrite IH. destruct w as [st ts ss cs ch out]. simpl.
    f_equal. by rewrite list_alter_alter_eq.
Qed.

Lemma kindIs_exclusive ts t :
  kindIs isVideo ts t = true → kindIs isAudio ts t = false.
Proof.
  unfold kindIs. destruct (ts !! t) as [tr|]; [|done]. by destruct (kind tr).
Qed.

(** X3. The camera is turned off.  Every video track of the local stream
    is stopped and taken out of the stream, which then has no video track
    and the audio tracks it had; every other track is as before.  The
    connections are not touched: each sender keeps the track it carried,
    now stopped.  No session is added or removed and nothing is sent. *)
Theorem toggleVideo_off_stops_camera (r : Render) (m : UserMedia) (w : World)
    (s : StreamId) :
  isVideoOn (hooks r) = true →
  localStream (hooks r) = Some s →
  let w' := toggleVideo r m w in
  getVideoTracks w' s = [] ∧
  getAudioTracks w' s = getAudioTracks w s ∧
  (∀ t, t ∈ getTracks w' s ↔ t ∈ getTracks w s ∧ t ∉ getVideoTracks w s) ∧
  (∀ t tr, t ∈ getVideoTracks w s → tracks w !! t = Some tr →
           tracks w' !! t = Some (stopTrack tr)) ∧
  (∀ t, t ∉ getVideoTracks w s → tracks w' !! t = tracks w !! t) ∧
  conns w' = conns w ∧
  sent w' = sent w ∧
  current w' = setIsVideoOn false (current w).
Proof.
  intros Hv Hs w'. subst w'. rewrite (toggleVideo_off_eq r m w s Hv Hs).
  set (vts := getVideoTracks w s).
  match goal with |- context [getVideoTracks ?x s = []] => set (w' := x) end.
  assert (Hg : getTracks w' s = removeTracks vts (getTracks w s)).
  { unfold getTracks, w'. simpl. rewrite list_lookup_alter_eq.
    destruct (streams w !! s) as [l|]; simpl; [done|].
    clear. induction vts as [|t vts IH]; [done|]. apply IH. }
  assert (Hk : ∀ p t, kindIs p (alterEach stopTrack id (tracks w) vts) t =
                      kindIs p (tracks w) t).
  { intros p t. by apply kindIs_alterEach. }
  assert (Hvid : ∀ t, t ∈ vts → kindIs isVideo (tracks w) t = true).
  { intros t Ht. unfold vts, getVideoTracks in Ht.
    apply list_elem_of_In, filter_In in Ht. tauto. }
  split; [|split; [|split; [|split; [|split]]]].
  - unfold getVideoTracks. rewrite Hg. simpl.
    apply filter_nil_iff. intros x Hx. rewrite Hk.
    apply elem_of_removeTracks in Hx as [Hx Hn].
    destruct (kindIs isVideo (tracks w) x) eqn:E; [|done].
    destruct Hn. unfold vts, getVideoTracks.
    apply list_elem_of_In, filter_In. split; [by apply list_elem_of_In|done].
  - unfold getAudioTracks at 1. rewrite Hg. simpl.
    rewrite (List.filter_ext _ (kindIs isAudio (tracks w))) by (intros; apply Hk).
    apply filter_removeTracks. intros t Ht. by apply kindIs_exclusive, Hvid.
  - intros t. rewrite Hg. apply elem_of_removeTracks.
  - intros t tr Ht Htr. simpl.
    rewrite (alterEach_lookup_idem stopTrack id vts _ t tr Htr stopTrack_idem).
    rewrite list_fmap_id. by rewrite bool_decide_eq_true_2.
  - intros t Ht. simpl. apply alterEach_lookup_notin. by rewrite list_fmap_id.
  - done.
Qed.

(** ** What the handlers leave alone *)

Lemma sameCallbacks_refl cs : sameCallbacks cs cs.
Proof. intros i c H. by exists c. Qed.

Lemma sameCallbacks_trans cs1 cs2 cs3 :
  sameCallbacks cs1 cs2 → sameCallbacks cs2 cs3 → sameCallbacks cs1 cs3.
Proof.
  intros H1 H2 i c H. destruct (H1 i c H) as (c' & H' & E1 & E2 & E3 & E4).
  destruct (H2 i c' H') as (c'' & H'' & F1 & F2 & F3 & F4).
  exists c''. split; [done|]. split; [congruence|]. split; [congruence|].
  split; congruence.
Qed.

Lemma sameCallbacks_app cs cs' : sameCallbacks cs (cs ++ cs').
Proof.
  intros i c H. exists c. split; [|done]. by apply lookup_app_l_Some.
Qed.

Lemma sameCallbacks_alter f i cs :
  (∀ c, cbTo (f c) = cbTo c ∧ cbFrom (f c) = cbFrom c ∧
        cbRegisters (f c) = cbRegisters c ∧ closed (f c) = closed c) →
  sameCallbacks cs (alter f i cs).
Proof.
  intros Hf j c H. rewrite list_lookup_alter.
  destruct (decide (i = j)) as [->|]; [|by exists c].
  rewrite H. simpl. exists (f c). split; [done|]. apply Hf.
Qed.

Lemma sameCallbacks_alterEach {B} f (key : B → nat) xs :
  (∀ c, cbTo (f c) = cbTo c ∧ cbFrom (f c) = cbFrom c ∧
        cbRegisters (f c) = cbRegisters c ∧ closed (f c) = closed c) →
  ∀ cs, sameCallbacks cs (alterEach f key cs xs).
Proof.
  intros Hf. induction xs as [|x xs IH]; intros cs; simpl.
  - apply sameCallbacks_refl.
  - eapply sameCallbacks_trans; [by apply sameCallbacks_alter|apply IH].
Qed.

Lemma shareOn_callbacks ts t c :
  cbTo (shareOn ts t c) = cbTo c ∧ cbFrom (shareOn ts t c) = cbFrom c ∧
  cbRegisters (shareOn ts t c) = cbRegisters c ∧
  closed (shareOn ts t c) = closed c.
Proof. unfold shareOn. by destruct (findVideoSender ts c). Qed.

Lemma shareOff_callbacks ts t c :
  cbTo (shareOff ts t c) = cbTo c ∧ cbFrom (shareOff ts t c) = cbFrom c ∧
  cbRegisters (shareOff ts t c) = cbRegisters c ∧
  closed (shareOff ts t c) = closed c.
Proof. unfold shareOff. by destruct (findVideoSender ts c), t. Qed.

Lemma framed_refl w : framed w w.
Proof. split; [done|]. split; [apply sameCallbacks_refl|done]. Qed.

Lemma framed_trans w1 w2 w3 : framed w1 w2 → framed w2 w3 → framed w1 w3.
Proof.
  intros (A1 & A2 & A3 & A4 & A5) (B1 & B2 & B3 & B4 & B5).
  split; [congruence|]. split; [by eapply sameCallbacks_trans|].
  split; [congruence|]. split; congruence.
Qed.

Lemma framed_same_conns w w' :
  peerConnections (current w') = peerConnections (current w) →
  conns w' = conns w → sent w' = sent w →
  signalingChannel w' = signalingChannel w → framed w w'.
Proof.
  intros H1 H2 H3 H4. split; [done|]. rewrite H2.
  split; [apply sameCallbacks_refl|done].
Qed.

Lemma framed_alterEach {B} f (key : B → nat) xs w w' :
  peerConnections (current w') = peerConnections (current w) →
  conns w' = alterEach f key (conns w) xs → sent w' = sent w →
  signalingChannel w' = signalingChannel w →
  (∀ c, cbTo (f c) = cbTo c ∧ cbFrom (f c) = cbFrom c ∧
        cbRegisters (f c) = cbRegisters c ∧ closed (f c) = closed c) →
  framed w w'.
Proof.
  intros H1 H2 H3 H4 Hf. split; [done|]. rewrite H2.
  split; [by apply sameCallbacks_alterEach|].
  split; [done|]. split; [done|apply alterEach_length].
Qed.

Lemma framed_alter f i w w' :
  peerConnections (current w') = peerConnections (current w) →
  conns w' = alter f i (conns w) → sent w' = sent w →
  signalingChannel w' = signalingChannel w →
  (∀ c, cbTo (f c) = cbTo c ∧ cbFrom (f c) = cbFrom c ∧
        cbRegisters (f c) = cbRegisters c ∧ closed (f c) = closed c) →
  framed w w'.
Proof.
  intros H1 H2 H3 H4 Hf. split; [done|]. rewrite H2.
  split; [by apply sameCallbacks_alter|].
  split; [done|]. split; [done|apply length_alter].
Qed.

Lemma framed_foldl {B} (f : World → B → World) xs :
  (∀ w x, framed w (f w x)) → ∀ w, framed w (foldl f w xs).
Proof.
  intros Hf. induction xs as [|x xs IH]; intros w; simpl.
  - apply framed_refl.
  - eapply framed_trans; [apply Hf|apply IH].
Qed.

Lemma toggleMute_framed r w : framed w (toggleMute r w).
Proof.
  unfold toggleMute.
  destruct (localStream (hooks r)); [|apply framed_refl].
  destruct (getAudioTracks w _); [apply framed_refl|].
  destruct (tracks w !! _); [|apply framed_refl].
  apply framed_same_conns; by destruct w.
Qed.

Lemma toggleVideo_framed r m w : framed w (toggleVideo r m w).
Proof.
  unfold toggleVideo. destruct (negb (isVideoOn (hooks r))).
  - destruct m; [|apply framed_refl].
    eapply (framed_alterEach (addTrack (length (tracks w))) connection
              (peerConnections (hooks r)));
      try by destruct w, (localStream (hooks r)).
  - assert (H : ∀ w', framed w' (setState (setIsVideoOn false) w'))
      by (intros w'; apply framed_same_conns; by destruct w').
    destruct (localStream (hooks r)); [|apply H].
    eapply framed_trans; [|apply H].
    apply framed_foldl. intros w' t. apply framed_same_conns; by destruct w'.
Qed.

Lemma toggleScreenShare_framed r m w : framed w (toggleScreenShare r m w).
Proof.
  destruct (isScreenSharing (hooks r)) eqn:E.
  - unfold toggleScreenShare. rewrite E. simpl.
    destruct (screenStream (hooks r)) as [s|], (localStream (hooks r)) as [ls|],
      (isVideoOn (hooks r));
      try (apply framed_same_conns; by destruct w);
      (eapply framed_alterEach; [..|apply shareOff_callbacks];
       by destruct w).
  - destruct m as [a|]; [|unfold toggleScreenShare; rewrite E; apply framed_refl].
    rewrite (toggleScreenShare_on r a w E).
    eapply framed_alterEach; [..|apply shareOn_callbacks]; done.
Qed.

Lemma trackEnded_framed t w : framed w (trackEnded t w).
Proof.
  unfold trackEnded. destruct (tracks w !! t) as [tr|]; [|apply framed_refl].
  destruct (onended tr); apply framed_same_conns; by destruct w.
Qed.

Lemma handleAnswer_framed r p a w : framed w (handleAnswer r p a w).
Proof.
  unfold handleAnswer. destruct (findPeer _ _); [|apply framed_refl].
  eapply framed_alter; by destruct w.
Qed.

Lemma handleIceCandidate_framed r p c w :
  framed w (handleIceCandidate r p c w).
Proof.
  unfold handleIceCandidate. destruct (findPeer _ _), c; try apply framed_refl.
  eapply framed_alter; by destruct w.
Qed.

Lemma onicecandidate_framed_but_sent pc cand w :
  let w' := onicecandidate pc cand w in
  current w' = current w ∧ conns w' = conns w ∧
  signalingChannel w' = signalingChannel w ∧
  (sent w' = sent w ∨
   ∃ c, conns w !! pc = Some c ∧
        sent w' = sent w ++ [mkPayload (cbTo c) (cbFrom c) (iceCandidate cand)]).
Proof.
  unfold onicecandidate, send.
  destruct (conns w !! pc) as [c|] eqn:E, cand; try (repeat split; by left).
  destruct w as [? ? ? ? [?|] ?]; simpl in *.
  - repeat split. right. by exists c.
  - repeat split. by left.
Qed.

(** ** The shape of what the handlers add *)

Lemma createPeerConnection_shape r u s b w :
  let w' := createPeerConnection r u s b w in
  peerConnections (current w') =
    match findPeer u (peerConnections (current w)) with
    | Some _ => peerConnections (current w)
    | None => peerConnections (current w) ++ [mkPeer u (length (conns w)) None]
    end ∧
  (∃ c, conns w' = conns w ++ [c] ∧ cbTo c = u ∧ cbFrom c = user r ∧
        cbRegisters c = true) ∧
  (sent w' = sent w ∨
   sent w' =
     sent w ++ [mkPayload u (user r) (offer (CreateOffer (length (conns w))))]) ∧
  signalingChannel w' = signalingChannel w.
Proof.
  unfold createPeerConnection, send. rewrite addTracks_fields.
  destruct w as [st ts ss cs [ch|] out], b; simpl;
    (split; [done|]; split; [eexists; split; [reflexivity|done]|]);
    split; try done; by (left + right).
Qed.

Lemma handleOffer_shape r p o w s :
  localStream (hooks r) = Some s →
  let w' := handleOffer r p o w in
  peerConnections (current w') =
    peerConnections (current w) ++ [mkPeer (from p) (length (conns w)) None] ∧
  (∃ c, conns w' = conns w ++ [c] ∧ cbTo c = from p ∧ cbFrom c = user r ∧
        cbRegisters c = false) ∧
  (sent w' = sent w ∨
   sent w' =
     sent w ++ [mkPayload (from p) (user r)
                  (answer (CreateAnswer (length (conns w))))]) ∧
  signalingChannel w' = signalingChannel w.
Proof.
  intros Hs. unfold handleOffer, send. rewrite Hs, addTracks_fields.
  destruct w as [st ts ss cs [ch|] out]; simpl;
    (split; [done|]; split; [eexists; split; [reflexivity|done]|]);
    split; try done; by (left + right).
Qed.

Lemma endCall_shape r w :
  peerConnections (current (endCall r w)) = [] ∧
  conns (endCall r w) =
    alterEach close connection (conns w) (peerConnections (hooks r)) ∧
  sent (endCall r w) = sent w ∧
  signalingChannel (endCall r w) = signalingChannel w.
Proof.
  unfold endCall.
  by destruct w, (localStream (hooks r)), (screenStream (hooks r)).
Qed.

Lemma withStream_ids u pc s l :
  userId <$> withStream u pc s l =
    if bool_decide (u ∈ userId <$> l) then userId <$> l
    else (userId <$> l) ++ [u].
Proof.
  induction l as [|p l IH]; [done|].
  cbn [withStream]. rewrite (fmap_cons userId).
  destruct (String.eqb_spec (userId p) u) as [E|E]; rewrite !fmap_cons.
  - rewrite bool_decide_eq_true_2; [done|]. rewrite E. by left.
  - rewrite IH. case_bool_decide as H.
    + rewrite bool_decide_eq_true_2; [done|by right].
    + rewrite bool_decide_eq_false_2; [done|].
      rewrite not_elem_of_cons. split; [congruence|done].
Qed.

Lemma withStream_conns u pc s l :
  connection <$> withStream u pc s l =
    if bool_decide (u ∈ userId <$> l) then connection <$> l
    else (connection <$> l) ++ [pc].
Proof.
  induction l as [|p l IH]; [done|].
  cbn [withStream]. rewrite (fmap_cons userId).
  destruct (String.eqb_spec (userId p) u) as [E|E]; rewrite !fmap_cons.
  - rewrite bool_decide_eq_true_2; [done|]. rewrite E. by left.
  - rewrite IH. case_bool_decide as H.
    + rewrite bool_decide_eq_true_2; [done|by right].
    + rewrite bool_decide_eq_false_2; [done|].
      rewrite not_elem_of_cons. split; [congruence|done].
Qed.

Lemma withStream_elem u pc s l q :
  q ∈ withStream u pc s l →
  (∃ q0, q0 ∈ l ∧ userId q = userId q0 ∧ connection q = connection q0) ∨
  (q = mkPeer u pc s ∧ u ∉ userId <$> l).
Proof.
  induction l as [|p l IH]; simpl; intros Hq.
  - right. apply list_elem_of_singleton in Hq. split; [done|].
    apply not_elem_of_nil.
  - destruct (String.eqb_spec (userId p) u) as [E|E].
    + left. apply elem_of_cons in Hq as [->|Hq].
      * exists p. split; [by left|done].
      * exists q. split; [by right|done].
    + apply elem_of_cons in Hq as [->|Hq].
      * left. exists p. split; [by left|done].
      * destruct (IH Hq) as [(q0 & H0 & E1 & E2)|[-> Hn]].
        -- left. exists q0. split; [by right|done].
        -- right. split; [done|]. apply not_elem_of_cons.
           split; [congruence|done].
Qed.

Lemma withStream_find u pc s l :
  findPeer u (withStream u pc s l) =
    Some (mkPeer u (from_option connection pc (findPeer u l)) s).
Proof.
  unfold findPeer. induction l as [|p l IH]; simpl.
  - by rewrite String.eqb_refl.
  - destruct (String.eqb_spec (userId p) u) as [E|E]; simpl.
    + rewrite E, String.eqb_refl. done.
    + apply String.eqb_neq in E. by rewrite E.
Qed.

Lemma withStream_others u pc s l :
  List.filter (λ p, negb (String.eqb (userId p) u)) (withStream u pc s l) =
  List.filter (λ p, negb (String.eqb (userId p) u)) l.
Proof.
  induction l as [|p l IH]; simpl.
  - by rewrite String.eqb_refl.
  - destruct (String.eqb (userId p) u) eqn:E; simpl; rewrite E; simpl; [done|].
    by rewrite IH.
Qed.

(** X4. A remote track arrives on a connection made by
    [createPeerConnection] for user [u].  Afterwards the first session of
    [u] carries the stream of the event; that session is the one [u]
    already had, with its connection, or a new session on this connection
    when [u] had none.  The sessions of all other users are as before, and
    the tracks, streams, connections and sent messages are untouched.  On
    a connection made by [handleOffer] the event changes nothing: the
    stream of such a session is never recorded. *)
Theorem ontrack_records_stream (pc : ConnId) (s : option StreamId)
    (w : World) (c : RTCPeerConnection) :
  conns w !! pc = Some c →
  let u := cbTo c in
  let w' := ontrack pc s w in
  (cbRegisters c = false → w' = w) ∧
  (cbRegisters c = true →
     findPeer u (peerConnections (current w')) =
       Some (mkPeer u (from_option connection pc
                         (findPeer u (peerConnections (current w)))) s) ∧
     (userId <$> peerConnections (current w')) =
       (if bool_decide (u ∈ userId <$> peerConnections (current w))
        then userId <$> peerConnections (current w)
        else (userId <$> peerConnections (current w)) ++ [u]) ∧
     List.filter (λ p, negb (String.eqb (userId p) u))
                 (peerConnections (current w')) =
       List.filter (λ p, negb (String.eqb (userId p) u))
                   (peerConnections (current w)) ∧
     flags (current w') = flags (current w) ∧
     tracks w' = tracks w ∧ streams w' = streams w ∧
     conns w' = conns w ∧ sent w' = sent w).
Proof.
  intros Hc u w'. subst w'. unfold ontrack. rewrite Hc.
  split; intros Hr; rewrite Hr; [done|].
  destruct w as [st ts ss cs ch out]. simpl.
  split; [apply withStream_find|]. split; [apply withStream_ids|].
  split; [apply withStream_others|]. by destruct st.
Qed.

(** ** Sessions and their connections *)

Lemma sessionsWellFormed_framed w w' :
  framed w w' → sessionsWellFormed w → sessionsWellFormed w'.
Proof.
  intros (H1 & H2 & _) [Hnd Hc]. unfold sessionsWellFormed. rewrite H1.
  split; [done|].
  intros pc Hpc. destruct (Hc pc Hpc) as (c & Hl & E).
  destruct (H2 _ c Hl) as (c' & Hl' & E' & _). exists c'. split; [done|].
  congruence.
Qed.

Lemma sessionsWellFormed_grow w w' c l :
  conns w' = conns w ++ [c] →
  (peerConnections (current w') = peerConnections (current w) ∨
   peerConnections (current w') =
     peerConnections (current w) ++ [mkPeer (cbTo c) (length (conns w)) l]) →
  sessionsWellFormed w → sessionsWellFormed w'.
Proof.
  intros Hcs Hps [Hnd Hc].
  assert (Hold : ∀ pc, pc ∈ peerConnections (current w) →
            ∃ c0, conns w' !! connection pc = Some c0 ∧ cbTo c0 = userId pc).
  { intros pc Hpc. destruct (Hc pc Hpc) as (c0 & Hl & E). exists c0.
    split; [|done]. rewrite Hcs. by apply lookup_app_l_Some. }
  unfold sessionsWellFormed.
  destruct Hps as [Ep|Ep]; rewrite Ep; [by split|]. split.
  - rewrite fmap_app. apply NoDup_app. split; [done|].
    split; [|apply NoDup_singleton].
    intros i Hi Hi'. apply list_elem_of_singleton in Hi'. subst i.
    apply list_elem_of_fmap in Hi as (pc & E & Hpc).
    destruct (Hc pc Hpc) as (c0 & Hl & _). apply lookup_lt_Some in Hl.
    simpl in E. lia.
  - intros pc Hpc. apply elem_of_app in Hpc as [Hpc|Hpc]; [by apply Hold|].
    apply list_elem_of_singleton in Hpc. subst pc. exists c. split; [|done].
    rewrite Hcs. simpl. by rewrite list_lookup_middle.
Qed.

Lemma createPeerConnection_wellFormed r u s b w :
  sessionsWellFormed w → sessionsWellFormed (createPeerConnection r u s b w).
Proof.
  destruct (createPeerConnection_shape r u s b w)
    as (Hp & (c & Hc & E & _) & _).
  intros H. apply (sessionsWellFormed_grow w _ c None); [done| |done].
  rewrite Hp, E. destruct (findPeer _ _); [by left|by right].
Qed.

Lemma startCall_wellFormed r m w :
  sessionsWellFormed w → sessionsWellFormed (startCall r m w).
Proof.
  intros H. unfold startCall. destruct m; [|done].
  apply foldl_inv.
  - intros w' p H'. destruct (negb _); [|done].
    by apply createPeerConnection_wellFormed.
  - by destruct w.
Qed.

Lemma onBroadcast_wellFormed r p w :
  sessionsWellFormed w → sessionsWellFormed (onBroadcast r p w).
Proof.
  intros H. unfold onBroadcast. destruct (String.eqb _ _); [|done].
  destruct (body p) as [o|a|c].
  - destruct (localStream (hooks r)) as [s|] eqn:Hs.
    + destruct (handleOffer_shape r p o w s Hs) as (Hp & (c & Hc & E & _) & _).
      apply (sessionsWellFormed_grow w _ c None); [done| |done].
      rewrite Hp, E. by right.
    + unfold handleOffer. by rewrite Hs.
  - eapply sessionsWellFormed_framed; [apply handleAnswer_framed|done].
  - eapply sessionsWellFormed_framed; [apply handleIceCandidate_framed|done].
Qed.

Lemma endCall_wellFormed r w : sessionsWellFormed (endCall r w).
Proof.
  destruct (endCall_shape r w) as (Hp & _). split; rewrite Hp.
  - apply NoDup_nil_2.
  - intros pc Hpc. by apply elem_of_nil in Hpc.
Qed.

Lemma ontrack_wellFormed pc s w :
  sessionsWellFormed w → sessionsWellFormed (ontrack pc s w).
Proof.
  intros [Hnd Hc]. unfold ontrack.
  destruct (conns w !! pc) as [c|] eqn:Hpc; [|by split].
  destruct (cbRegisters c); [|by split].
  destruct w as [st ts ss cs ch out]. simpl in *. split; simpl.
  - destruct st. simpl in *. rewrite withStream_conns. case_bool_decide as Hu; [done|].
    apply NoDup_app. split; [done|]. split; [|apply NoDup_singleton].
    intros i Hi Hi'. apply list_elem_of_singleton in Hi'. subst i.
    apply list_elem_of_fmap in Hi as (q & E & Hq).
    destruct (Hc q Hq) as (c0 & Hl & E0). apply Hu.
    apply list_elem_of_fmap. exists q. split; [|done]. congruence.
  - destruct st. simpl in *. intros q Hq.
    apply withStream_elem in Hq as [(q0 & H0 & E1 & E2)|[-> _]].
    + rewrite E1, E2. by apply Hc.
    + by exists c.
Qed.

Lemma sessionsWellFormed_step c e :
  sessionsWellFormed (world c) → sessionsWellFormed (world (step c e)).
Proof.
  intros H. step_cases e; try exact H.
  - destruct (world_setRoom room c) as [->| ->]; [done|].
    by destruct (world c).
  - by apply startCall_wellFormed.
  - apply endCall_wellFormed.
  - eapply sessionsWellFormed_framed; [apply toggleMute_framed|done].
  - eapply sessionsWellFormed_framed; [apply toggleVideo_framed|done].
  - eapply sessionsWellFormed_framed; [apply toggleScreenShare_framed|done].
  - by apply onBroadcast_wellFormed.
  - by apply ontrack_wellFormed.
  - unfold onicecandidate, send.
    destruct (conns (world c) !! pc), c0; try done.
    by destruct (world c) as [? ? ? ? [?|] ?].
  - eapply sessionsWellFormed_framed; [apply trackEnded_framed|done].
Qed.

Lemma run_inv (P : Component → Prop) :
  (∀ c e, P c → P (step c e)) → ∀ es c, P c → P (run c es).
Proof.
  intros Hstep. induction es as [|e es IH]; intros c H; simpl; [done|].
  apply IH. by apply Hstep.
Qed.

Lemma world_mount u room ps :
  world (mount u room ps) = mkWorld initialState [] [] [] None [] ∨
  world (mount u room ps) =
    mkWorld initialState [] [] [] (Some (String.append "webrtc_" room)) [].
Proof.
  unfold mount, useEffect. simpl. destruct (String.eqb room ""); [by left|by right].
Qed.

(** X5. In every state the component reaches from its mount, no
    connection belongs to two sessions, and the connection of every
    session exists and was created for that session's user id. *)
Theorem sessions_own_their_connections (u : Id) (room : string)
    (ps : list RoomParticipant) (es : list Event) :
  sessionsWellFormed (world (run (mount u room ps) es)).
Proof.
  apply (run_inv (λ c, sessionsWellFormed (world c))).
  - intros c e. apply sessionsWellFormed_step.
  - destruct (world_mount u room ps) as [->| ->];
      (split; [apply NoDup_nil_2|]; intros pc Hpc; by apply elem_of_nil in Hpc).
Qed.

(** ** Sessions without incoming offers *)

Lemma createPeerConnection_ids r u s b w :
  NoDup (userId <$> peerConnections (current w)) →
  NoDup (userId <$> peerConnections (current (createPeerConnection r u s b w))).
Proof.
  intros H. destruct (createPeerConnection_shape r u s b w) as (Hp & _).
  rewrite Hp. destruct (findPeer u _) eqn:E; [done|].
  apply findPeer_None in E. rewrite fmap_app. apply NoDup_app.
  split; [done|]. split; [|apply NoDup_singleton].
  intros x Hx Hx'. apply list_elem_of_singleton in Hx'. by subst.
Qed.

Lemma ids_step c e :
  isOffer e = false →
  NoDup (userId <$> peerConnections (current (world c))) →
  NoDup (userId <$> peerConnections (current (world (step c e)))).
Proof.
  intros He H. step_cases e; try exact H.
  - by rewrite current_setRoom.
  - unfold startCall. destruct m; [|done]. apply foldl_inv.
    + intros w' p' H'. destruct (negb _); [|done].
      by apply createPeerConnection_ids.
    + by destruct (world c).
  - destruct (endCall_shape (render c) (world c)) as (-> & _).
    apply NoDup_nil_2.
  - by destruct (toggleMute_framed (render c) (world c)) as (-> & _).
  - by destruct (toggleVideo_framed (render c) m (world c)) as (-> & _).
  - by destruct (toggleScreenShare_framed (render c) m (world c)) as (-> & _).
  - simpl in He. unfold onBroadcast. destruct (String.eqb _ _); [|done].
    destruct (body p) as [o|a|x]; [done| |].
    + by destruct (handleAnswer_framed r p a (world c)) as (-> & _).
    + by destruct (handleIceCandidate_framed r p x (world c)) as (-> & _).
  - unfold ontrack. destruct (conns (world c) !! pc) as [x|]; [|done].
    destruct (cbRegisters x); [|done].
    destruct (world c) as [[] ? ? ? ? ?]. simpl in *.
    rewrite withStream_ids. case_bool_decide as Hu; [done|].
    apply NoDup_app. split; [done|]. split; [|apply NoDup_singleton].
    intros y Hy Hy'. apply list_elem_of_singleton in Hy'. by subst.
  - by destruct (onicecandidate_framed_but_sent pc c0 (world c)) as (-> & _).
  - by destruct (trackEnded_framed t (world c)) as (-> & _).
Qed.

(** X6. As long as no offer arrives, no user id has two sessions: the
    sessions made by [startCall] and by [ontrack] never repeat an id, in
    any state reached from the mount by any other events. *)
Theorem one_session_per_id_without_offers (u : Id) (room : string)
    (ps : list RoomParticipant) (es : list Event) :
  forallb (λ e, negb (isOffer e)) es = true →
  NoDup (userId <$> peerConnections
                      (current (world (run (mount u room ps) es)))).
Proof.
  assert (H0 : NoDup (userId <$> peerConnections
                        (current (world (mount u room ps))))).
  { destruct (world_mount u room ps) as [->| ->]; apply NoDup_nil_2. }
  revert H0. generalize (mount u room ps).
  induction es as [|e es IH]; intros c H0 Hes; simpl in *; [done|].
  apply andb_true_iff in Hes as [He Hes]. apply negb_true_iff in He.
  apply IH; [|done]. by apply ids_step.
Qed.

(** ** What is sent *)

Lemma sent_step c e :
  maySend e = false → sent (world (step c e)) = sent (world c).
Proof.
  intros He. step_cases e; try done.
  - by destruct (world_setRoom room c) as [->| ->].
  - by destruct (endCall_shape (render c) (world c)) as (_ & _ & -> & _).
  - by destruct (toggleMute_framed (render c) (world c)) as (_ & _ & -> & _).
  - by destruct (toggleVideo_framed (render c) m (world c)) as (_ & _ & -> & _).
  - by destruct (toggleScreenShare_framed (render c) m (world c))
      as (_ & _ & -> & _).
  - simpl in He. unfold onBroadcast. destruct (String.eqb _ _); [|done].
    destruct (body p) as [o|a|x]; [done| |].
    + by destruct (handleAnswer_framed r p a (world c)) as (_ & _ & -> & _).
    + by destruct (handleIceCandidate_framed r p x (world c))
        as (_ & _ & -> & _).
  - unfold ontrack. destruct (conns (world c) !! pc) as [x|]; [|done].
    destruct (cbRegisters x); [|done]. by destruct (world c).
  - by destruct (trackEnded_framed t (world c)) as (_ & _ & -> & _).
Qed.

(** X7. Only a start of the call, an incoming offer and a local ICE
    candidate make the component send.  Along any other events (ending
    the call, muting, turning the camera or the screen share on or off,
    answers and candidates received, remote tracks, ended tracks, roster
    and room changes) nothing is sent: no hang-up message when the call
    ends, and no new offer when the set of tracks changes. *)
Theorem nothing_sent_otherwise (c : Component) (es : list Event) :
  forallb (λ e, negb (maySend e)) es = true →
  sent (world (run c es)) = sent (world c).
Proof.
  revert c. induction es as [|e es IH]; intros c Hes; simpl in *; [done|].
  apply andb_true_iff in Hes as [He Hes]. apply negb_true_iff in He.
  rewrite IH by done. by apply sent_step.
Qed.

Lemma Forall_snoc {A} (P : A → Prop) l x : Forall P l → P x → Forall P (l ++ [x]).
Proof. intros H Hx. apply Forall_app. split; [done|]. by constructor. Qed.

Lemma Forall_alterEach {A B} (P : A → Prop) (f : A → A) (key : B → nat) xs :
  (∀ x, P x → P (f x)) → ∀ l, Forall P l → Forall P (alterEach f key l xs).
Proof.
  intros Hf. induction xs as [|x xs IH]; intros l H; simpl; [done|].
  apply IH. apply Forall_alter; [done|]. intros y _. apply Hf.
Qed.

Lemma sendsAs_world u c w' :
  sendsAs u c →
  Forall (λ p, from p = u) (sent w') ∧ Forall (λ x, cbFrom x = u) (conns w') →
  sendsAs u (mkComponent w' (propUser c) (propRoomId c) (propParticipants c)
                         (subscribed c)).
Proof. intros (H1 & H2 & _) [H3 H4]. by split. Qed.

Lemma framed_sendsAs u w w' :
  framed w w' →
  Forall (λ p, from p = u) (sent w) ∧ Forall (λ x, cbFrom x = u) (conns w) →
  Forall (λ p, from p = u) (sent w') ∧ Forall (λ x, cbFrom x = u) (conns w').
Proof.
  intros (_ & Hcb & Hs & _ & Hlen) [H1 H2]. rewrite Hs. split; [done|].
  apply Forall_lookup. intros i x Hx.
  assert (Hi : i < length (conns w)) by (rewrite <- Hlen; by eapply lookup_lt_Some).
  apply lookup_lt_is_Some in Hi as [x0 H0].
  destruct (Hcb i x0 H0) as (x' & Hx' & _ & E & _).
  rewrite Forall_lookup in H2. rewrite <- (H2 i x0 H0). congruence.
Qed.

Lemma createPeerConnection_sendsAs r u s b w :
  Forall (λ p, from p = user r) (sent w) ∧
  Forall (λ x, cbFrom x = user r) (conns w) →
  Forall (λ p, from p = user r) (sent (createPeerConnection r u s b w)) ∧
  Forall (λ x, cbFrom x = user r) (conns (createPeerConnection r u s b w)).
Proof.
  intros [H1 H2].
  destruct (createPeerConnection_shape r u s b w)
    as (_ & (c & -> & _ & E & _) & [-> | ->] & _);
    (split; [|by apply Forall_snoc]); [done|by apply Forall_snoc].
Qed.

Lemma startCall_sendsAs r m w :
  Forall (λ p, from p = user r) (sent w) ∧
  Forall (λ x, cbFrom x = user r) (conns w) →
  Forall (λ p, from p = user r) (sent (startCall r m w)) ∧
  Forall (λ x, cbFrom x = user r) (conns (startCall r m w)).
Proof.
  intros H. unfold startCall. destruct m; [|done].
  apply (foldl_inv (λ w, Forall (λ p, from p = user r) (sent w) ∧
                         Forall (λ x, cbFrom x = user r) (conns w))).
  - intros w' p Hw. destruct (negb _); [|done].
    by apply createPeerConnection_sendsAs.
  - by destruct w.
Qed.

Lemma onBroadcast_sendsAs r p w :
  Forall (λ p, from p = user r) (sent w) ∧
  Forall (λ x, cbFrom x = user r) (conns w) →
  Forall (λ p, from p = user r) (sent (onBroadcast r p w)) ∧
  Forall (λ x, cbFrom x = user r) (conns (onBroadcast r p w)).
Proof.
  intros H. unfold onBroadcast. destruct (String.eqb _ _); [|done].
  destruct (body p) as [o|a|x].
  - destruct (localStream (hooks r)) as [s|] eqn:Hs.
    + destruct H as [H1 H2].
      destruct (handleOffer_shape r p o w s Hs)
        as (_ & (x & -> & _ & E & _) & [-> | ->] & _);
        (split; [|by apply Forall_snoc]); [done|by apply Forall_snoc].
    + unfold handleOffer. by rewrite Hs.
  - by eapply framed_sendsAs; [apply handleAnswer_framed|].
  - by eapply framed_sendsAs; [apply handleIceCandidate_framed|].
Qed.

Lemma sendsAs_step u c e : sendsAs u c → sendsAs u (step c e).
Proof.
  intros H. pose proof H as (H1 & H2 & H3 & H4).
  assert (Hw : Forall (λ p, from p = u) (sent (world c)) ∧
               Forall (λ x, cbFrom x = u) (conns (world c))) by done.
  destruct e; unfold step, onWorld, setParticipants; cbn [world].
  - done.
  - unfold setRoom, useEffect. destruct (String.eqb room _); [done|].
    cbn. destruct (String.eqb room ""); cbn.
    + split; [done|]. split; [by intros r [=]|done].
    + split; [done|]. split; [|done]. by intros r [= <-].
  - destruct (isInCall _); [done|]. apply sendsAs_world; [done|].
    rewrite <- H1 in *. by apply (startCall_sendsAs (render c)).
  - destruct (isInCall _); [|done]. apply sendsAs_world; [done|].
    destruct (endCall_shape (render c) (world c)) as (Hp & Hc & Hs & Hch).
    rewrite Hs, Hc. split; [done|]. by apply Forall_alterEach.
  - destruct (isInCall _); [|done]. apply sendsAs_world; [done|].
    by eapply (framed_sendsAs u (world c)); [apply toggleMute_framed|].
  - destruct (isInCall _); [|done]. apply sendsAs_world; [done|].
    by eapply (framed_sendsAs u (world c)); [apply toggleVideo_framed|].
  - destruct (isInCall _); [|done]. apply sendsAs_world; [done|].
    by eapply (framed_sendsAs u (world c)); [apply toggleScreenShare_framed|].
  - destruct (subscribed c) as [r|] eqn:Hr; [|done]. cbn [world].
    specialize (H2 r eq_refl). rewrite <- Hr. apply sendsAs_world; [done|].
    rewrite <- H2 in *. by apply onBroadcast_sendsAs.
  - destruct (isOpen _ _); [|done]. cbn [world].
    apply sendsAs_world; [done|]. unfold ontrack.
    destruct (conns (world c) !! pc) as [x|]; [|done].
    destruct (cbRegisters x); [|done]. by destruct (world c).
  - destruct (isOpen _ _); [|done]. cbn [world].
    destruct (onicecandidate_framed_but_sent pc c0 (world c))
      as (_ & Hc & _ & Hs).
    apply sendsAs_world; [done|]. rewrite Hc. split; [|done].
    destruct Hs as [-> |(x & Hx & ->)]; [done|].
    apply Forall_snoc; [done|]. simpl.
    rewrite Forall_lookup in H4. by apply (H4 pc x).
  - apply sendsAs_world; [done|].
    by eapply (framed_sendsAs u (world c)); [apply trackEnded_framed|].
Qed.

(** X8. Every message the component has sent, in any state reached from
    its mount, carries the local user's id in [from]: offers, answers and
    candidates are never sent in another participant's name. *)
Theorem sent_messages_are_from_the_local_user (u : Id) (room : string)
    (ps : list RoomParticipant) (es : list Event) :
  Forall (λ p, from p = u) (sent (world (run (mount u room ps) es))).
Proof.
  assert (H : sendsAs u (run (mount u room ps) es)).
  { apply (run_inv (sendsAs u)); [intros c e; apply sendsAs_step|].
    unfold mount, useEffect. cbn. destruct (String.eqb room ""); cbn.
    - split; [done|]. split; [by intros r [=]|]. by split.
    - split; [done|]. split; [by intros r [= <-]|]. by split. }
  by destruct H as (_ & _ & H & _).
Qed.

(** ** The callbacks registered at mount *)

Lemma onBroadcast_initial r p w : hooks r = initialState → onBroadcast r p w = w.
Proof.
  intros H. unfold onBroadcast, handleOffer, handleAnswer, handleIceCandidate.
  rewrite H. simpl. destruct (String.eqb _ _); [|done].
  by destruct (body p) as [o|a|[x|]].
Qed.

Lemma subscribed_step c e :
  isRoomChange e = false → subscribed (step c e) = subscribed c.
Proof.
  intros He. destruct e; try done; unfold step; cbn zeta;
    repeat match goal with
      | |- context [if ?b then _ else _] => destruct b
      | |- context [match subscribed ?c with _ => _ end] =>
          destruct (subscribed c) eqn:?
      end; done.
Qed.

Lemma step_broadcast_initial c p :
  (∀ r, subscribed c = Some r → hooks r = initialState) →
  step c (Broadcast p) = c.
Proof.
  intros H. unfold step. cbn zeta. destruct (subscribed c) as [r|] eqn:E; [|done].
  unfold onWorld. rewrite (onBroadcast_initial r p _ (H r eq_refl)).
  destruct c; simpl in *. by rewrite E.
Qed.

(** X9. The broadcast callbacks are those of the render in which the
    effect ran.  Until the effect runs again (the room changes), they are
    the callbacks of the first render, which see no local stream and an
    empty session list: every offer, answer and candidate that arrives is
    then ignored, whatever the user has done in between.  A run without a
    room change ends in the same state as the run with its broadcasts
    taken out. *)
Theorem broadcasts_ignored_until_resubscribed (u : Id) (room : string)
    (ps : list RoomParticipant) (es : list Event) :
  forallb (λ e, negb (isRoomChange e)) es = true →
  run (mount u room ps) es =
  run (mount u room ps) (List.filter (λ e, negb (isBroadcast e)) es).
Proof.
  assert (H0 : ∀ r, subscribed (mount u room ps) = Some r →
                    hooks r = initialState).
  { unfold mount, useEffect. cbn. destruct (String.eqb room ""); cbn.
    - by intros r [=].
    - by intros r [= <-]. }
  revert H0. generalize (mount u room ps).
  induction es as [|e es IH]; intros c H0 Hes; [done|].
  cbn [forallb] in Hes. apply andb_true_iff in Hes as [He Hes].
  apply negb_true_iff in He.
  destruct (isBroadcast e) eqn:Eb.
  - destruct e; try done. cbn [List.filter isBroadcast negb run foldl].
    rewrite (step_broadcast_initial c p H0). by apply IH.
  - cbn [List.filter]. rewrite Eb. cbn [negb run foldl]. apply IH; [|done].
    intros r Hr. rewrite (subscribed_step c e He) in Hr. by apply H0.
Qed.

(** ** startCall reaches every participant *)

Lemma createPeerConnection_ids_grow r u s b w v :
  v ∈ userId <$> peerConnections (current w) ∨ v = u →
  v ∈ userId <$> peerConnections (current (createPeerConnection r u s b w)).
Proof.
  intros H. destruct (createPeerConnection_shape r u s b w) as (-> & _).
  destruct (findPeer u _) eqn:E.
  - destruct H as [H| ->]; [done|].
    destruct (decide (u ∈ userId <$> peerConnections (current w)));
      [done|]. apply findPeer_None in n. congruence.
  - rewrite fmap_app, elem_of_app. destruct H as [H| ->]; [by left|].
    right. by apply list_elem_of_singleton.
Qed.

Lemma createPeerConnection_silent r u s b w :
  signalingChannel w = None →
  sent (createPeerConnection r u s b w) = sent w ∧
  signalingChannel (createPeerConnection r u s b w) = None.
Proof.
  intros H. unfold createPeerConnection, send.
  destruct w as [st ts ss cs ch out], b; simpl in *; by subst.
Qed.

(** X10. [startCall] with the microphone granted leaves a session for
    every roster entry whose id is not the local user's, whatever the
    session list held before.  When the component has no channel (the
    effect returned early on an empty room id), the connections and
    sessions are made all the same but no offer is sent. *)
Theorem startCall_reaches_every_participant (r : Render) (w : World) :
  let w' := startCall r granted w in
  (∀ p, p ∈ participants r → user_id p ≠ user r →
        user_id p ∈ userId <$> peerConnections (current w')) ∧
  (signalingChannel w = None → sent w' = sent w).
Proof.
  intros w'. subst w'. unfold startCall.
  set (w0 := setState (setIsMuted false) _).
  set (f := λ (w : World) (participant : RoomParticipant), _).
  split.
  - generalize w0. induction (participants r) as [|q ps IH]; intros w1 p Hp Hne.
    + by apply elem_of_nil in Hp.
    + cbn [foldl]. apply elem_of_cons in Hp as [->|Hp]; [|by apply IH].
      assert (H1 : user_id q ∈ userId <$> peerConnections (current (f w1 q))).
      { unfold f. apply String.eqb_neq in Hne. rewrite Hne. cbn [negb].
        apply createPeerConnection_ids_grow. by right. }
      revert H1. generalize (f w1 q). clear.
      induction ps as [|q' ps IH]; intros w2 H; [done|].
      cbn [foldl]. apply IH. unfold f. destruct (negb _); [|done].
      apply createPeerConnection_ids_grow. by left.
  - intros Hch.
    assert (H : sent (foldl f w0 (participants r)) = sent w0 ∧
                signalingChannel (foldl f w0 (participants r)) = None).
    { apply (foldl_inv (λ w', sent w' = sent w0 ∧ signalingChannel w' = None)).
      - intros w1 p [H1 H2]. unfold f. destruct (negb _); [|done].
        destruct (createPeerConnection_silent r (user_id p)
                    (length (streams w)) true w1 H2) as [-> ->]. done.
      - split; [done|]. unfold w0. by destruct w. }
    destruct H as [-> _]. unfold w0. by destruct w.
Qed.

(** ** The mute indicator *)

Lemma tracksKept_refl ts : tracksKept ts ts.
Proof. intros t tr H. by exists tr. Qed.

Lemma tracksKept_trans ts1 ts2 ts3 :
  tracksKept ts1 ts2 → tracksKept ts2 ts3 → tracksKept ts1 ts3.
Proof.
  intros H1 H2 t tr H. destruct (H1 t tr H) as (tr' & H' & Hk & He).
  destruct (H2 t tr' H') as (tr'' & H'' & Hk' & He').
  exists tr''. split; [done|]. split; congruence.
Qed.

Lemma tracksKept_app ts ts' : tracksKept ts (ts ++ ts').
Proof. intros t tr H. exists tr. split; [|done]. by apply lookup_app_l_Some. Qed.

Lemma tracksKept_alter (f : MediaStreamTrack → MediaStreamTrack) i ts :
  (∀ tr, kind (f tr) = kind tr ∧ enabled (f tr) = enabled tr) →
  tracksKept ts (alter f i ts).
Proof.
  intros Hf t tr H. destruct (decide (i = t)) as [->|Hne].
  - exists (f tr). rewrite list_lookup_alter_eq, H. split; [done|]. apply Hf.
  - exists tr. by rewrite list_lookup_alter_ne.
Qed.

Lemma tracksKept_alterEach (f : MediaStreamTrack → MediaStreamTrack) l :
  (∀ tr, kind (f tr) = kind tr ∧ enabled (f tr) = enabled tr) →
  ∀ ts, tracksKept ts (alterEach f id ts l).
Proof.
  intros Hf. induction l as [|x l IH]; intros ts; [apply tracksKept_refl|].
  eapply tracksKept_trans; [|apply IH]. by apply tracksKept_alter.
Qed.

Lemma tracksKept_kindIs p ts ts' t :
  tracksKept ts ts' → t < length ts → kindIs p ts' t = kindIs p ts t.
Proof.
  intros H Ht. apply lookup_lt_is_Some in Ht as [tr Htr].
  destruct (H t tr Htr) as (tr' & H' & Hk & _).
  unfold kindIs. by rewrite H', Htr, Hk.
Qed.


(** The indicator stays right when the flag and the local stream are kept,
    every track keeps its kind and [enabled], and the local stream keeps
    its audio tracks. *)
Lemma muteMirrors_stable (w w' : World) :
  closedStore w →
  localStream (current w') = localStream (current w) →
  isMuted (current w') = isMuted (current w) →
  tracksKept (tracks w) (tracks w') →
  (∀ s l, localStream (current w) = Some s → streams w !! s = Some l →
     ∃ l', streams w' !! s = Some l' ∧
           List.filter (kindIs isAudio (tracks w')) l' =
           List.filter (kindIs isAudio (tracks w')) l) →
  muteMirrors w → muteMirrors w'.
Proof.
  intros [Hc _] Hl Hm Ht Hs. unfold muteMirrors. rewrite Hl, Hm.
  destruct (localStream (current w)) as [s|] eqn:Els; [|done].
  intros (t & tr & Hh & Htr & Hmu).
  unfold getAudioTracks, getTracks in Hh.
  destruct (streams w !! s) as [l|] eqn:El; [|done]. simpl in Hh.
  destruct (Hs s l eq_refl El) as (l' & El' & Hf).
  destruct (Ht t tr Htr) as (tr' & Htr' & _ & He).
  exists t, tr'. split; [|by rewrite He].
  unfold getAudioTracks, getTracks. rewrite El'. simpl. rewrite Hf, <- Hh.
  f_equal. apply filter_ext_in. intros x Hx. apply list_elem_of_In in Hx.
  apply tracksKept_kindIs; [done|]. by eapply Hc.
Qed.

Lemma muteMirrors_ext (w w' : World) :
  flags (current w') = flags (current w) → tracks w' = tracks w →
  streams w' = streams w → muteMirrors w → muteMirrors w'.
Proof.
  unfold flags, muteMirrors, getAudioTracks, getTracks.
  intros [= _ Hm _ _ Hl _] -> ->. by rewrite Hl, Hm.
Qed.

Lemma media_createPeerConnection r u s b w :
  tracks (createPeerConnection r u s b w) = tracks w ∧
  streams (createPeerConnection r u s b w) = streams w.
Proof.
  unfold createPeerConnection, send.
  by destruct w as [st ts ss cs [ch|] out], b,
    (findPeer u (peerConnections st)) eqn:E; simpl; rewrite ?E.
Qed.

Lemma media_onBroadcast r p w :
  tracks (onBroadcast r p w) = tracks w ∧
  streams (onBroadcast r p w) = streams w.
Proof.
  unfold onBroadcast, handleOffer, handleAnswer, handleIceCandidate, send.
  destruct (String.eqb _ _); [|done].
  destruct (body p) as [o|a|[x|]]; try done;
    repeat match goal with
      | |- context [match ?x with _ => _ end] => destruct x
      end; by destruct w as [st ts ss cs [ch|] out].
Qed.

Lemma media_ontrack pc s w :
  tracks (ontrack pc s w) = tracks w ∧ streams (ontrack pc s w) = streams w.
Proof.
  unfold ontrack.
  repeat match goal with
    | |- context [match ?x with _ => _ end] => destruct x
    end; by destruct w.
Qed.

Lemma media_onicecandidate pc x w :
  tracks (onicecandidate pc x w) = tracks w ∧
  streams (onicecandidate pc x w) = streams w.
Proof.
  unfold onicecandidate, send.
  repeat match goal with
    | |- context [match ?x with _ => _ end] => destruct x
    end; by destruct w as [st ts ss cs [ch|] out].
Qed.

Lemma startCall_muteMirrors r m w : muteMirrors w → muteMirrors (startCall r m w).
Proof.
  intros H. destruct m; [|exact H]. unfold startCall.
  set (w0 := setState (setIsMuted false) _).
  set (f := λ (w : World) (participant : RoomParticipant), _).
  assert (H0 : muteMirrors w0).
  { unfold muteMirrors, w0, getAudioTracks, getTracks.
    destruct w as [st ts ss cs ch out]. simpl.
    exists (length ts), (freshTrack audio).
    rewrite !list_lookup_middle by done. simpl.
    unfold kindIs. by rewrite list_lookup_middle. }
  revert H0. apply foldl_inv. intros w1 p H1. unfold f.
  destruct (negb _); [|done].
  destruct (media_createPeerConnection r (user_id p) (length (streams w)) true w1)
    as [Ht Hs].
  eapply muteMirrors_ext; [apply flags_createPeerConnection|done..].
Qed.

Lemma toggleMute_eq r w s t tr :
  localStream (hooks r) = Some s → head (getAudioTracks w s) = Some t →
  tracks w !! t = Some tr →
  toggleMute r w =
    mkWorld (setIsMuted (enabled tr) (current w))
            (alter (setEnabled (negb (enabled tr))) t (tracks w))
            (streams w) (conns w) (signalingChannel w) (sent w).
Proof.
  intros Hs Hh Ht. unfold toggleMute. rewrite Hs.
  destruct (getAudioTracks w s) as [|t' l]; [done|]. injection Hh as ->.
  rewrite Ht. cbn zeta. rewrite negb_involutive. by destruct w.
Qed.

Lemma getAudioTracks_setEnabled st ts ss cs ch out st' b t s :
  getAudioTracks (mkWorld st' (alter (setEnabled b) t ts) ss cs ch out) s =
  getAudioTracks (mkWorld st ts ss cs ch out) s.
Proof.
  unfold getAudioTracks, getTracks. simpl. apply filter_ext.
  intros x. by apply kindIs_alter.
Qed.

Lemma toggleMute_muteMirrors r w :
  hooks r = current w → muteMirrors w → muteMirrors (toggleMute r w).
Proof.
  intros Hr. unfold muteMirrors at 1.
  destruct (localStream (current w)) as [s|] eqn:Els.
  - intros (t & tr & Hh & Ht & Hm).
    rewrite (toggleMute_eq r w s t tr) by (by rewrite ?Hr).
    destruct w as [st ts ss cs ch out]. unfold muteMirrors.
    simpl in *. rewrite Els.
    exists t, (setEnabled (negb (enabled tr)) tr).
    rewrite (getAudioTracks_setEnabled st), list_lookup_alter_eq, Ht. simpl.
    by rewrite negb_involutive.
  - intros Hm. unfold toggleMute. rewrite Hr, Els. unfold muteMirrors.
    by rewrite Els.
Qed.

Lemma toggleVideo_muteMirrors r m w :
  hooks r = current w → is_Some (localStream (current w)) →
  closedStore w → muteMirrors w → muteMirrors (toggleVideo r m w).
Proof.
  intros Hr [s Hs] Hc H.
  assert (Hsr : localStream (hooks r) = Some s) by (by rewrite Hr).
  destruct (isVideoOn (hooks r)) eqn:Ev.
  - rewrite (toggleVideo_off_eq r m w s) by done.
    apply (muteMirrors_stable w); [done|by destruct w as [[]]..| | |done].
    + apply tracksKept_alterEach. by intros [].
    + simpl. intros s' l Hs' Hl. rewrite Hs in Hs'. injection Hs' as <-.
      exists (removeTracks (getVideoTracks w s) l).
      rewrite list_lookup_alter_eq, Hl. split; [done|].
      apply filter_removeTracks. intros t Ht.
      rewrite kindIs_alterEach by done. apply kindIs_exclusive.
      unfold getVideoTracks in Ht. apply list_elem_of_In, filter_In in Ht.
      tauto.
  - destruct m.
    + rewrite (toggleVideo_on_eq r w s) by done.
      apply (muteMirrors_stable w); [done|by destruct w as [[]]..| | |done].
      * apply tracksKept_app.
      * simpl. intros s' l Hs' Hl. rewrite Hs in Hs'. injection Hs' as <-.
        exists (l ++ [length (tracks w)]).
        rewrite list_lookup_alter_eq, (lookup_app_l_Some _ _ _ _ Hl).
        split; [done|]. rewrite List.filter_app. simpl.
        unfold kindIs at 2. rewrite list_lookup_middle by done. simpl.
        by rewrite app_nil_r.
    + unfold toggleVideo. by rewrite Ev.
Qed.

Lemma media_toggleScreenShare_off r m w :
  isScreenSharing (hooks r) = true →
  tracks (toggleScreenShare r m w) =
    stoppedBy (screenStream (hooks r)) w (tracks w) ∧
  streams (toggleScreenShare r m w) = streams w.
Proof.
  intros H. unfold toggleScreenShare. rewrite H.
  destruct w as [st ts ss cs ch out].
  by destruct (screenStream (hooks r)), (localStream (hooks r)),
    (isVideoOn (hooks r)).
Qed.

Lemma toggleScreenShare_muteMirrors r m w :
  hooks r = current w → closedStore w → muteMirrors w →
  muteMirrors (toggleScreenShare r m w).
Proof.
  intros Hr Hc H.
  destruct (isScreenSharing (hooks r)) eqn:Es.
  - destruct (media_toggleScreenShare_off r m w Es) as [Ht Hst].
    assert (Hcur := current_toggleScreenShare_off r m w Hr).
    rewrite <- Hr in Hcur at 1. specialize (Hcur Es).
    apply (muteMirrors_stable w);
      [done|rewrite Hcur; by destruct (current w)
      |rewrite Hcur; by destruct (current w)| | |].
    + rewrite Ht. destruct (screenStream (hooks r)); [|apply tracksKept_refl].
      apply tracksKept_alterEach. by intros [].
    + intros s l _ Hl. exists l. by rewrite Hst.
    + done.
  - destruct m as [a|].
    + rewrite (toggleScreenShare_on r a w Es).
      apply (muteMirrors_stable w); [done|by destruct w as [[]]..| | |done].
      * simpl. eapply tracksKept_trans; [|apply tracksKept_alter; by intros []].
        unfold tracksWhenShared. destruct a; [|apply tracksKept_app].
        eapply tracksKept_trans; apply tracksKept_app.
      * simpl. intros s l _ Hl. exists l. split; [|done].
        by apply lookup_app_l_Some.
    + unfold toggleScreenShare. by rewrite Es.
Qed.

Lemma trackEnded_muteMirrors t w :
  closedStore w → muteMirrors w → muteMirrors (trackEnded t w).
Proof.
  intros Hc H. unfold trackEnded. destruct (tracks w !! t) as [tr|]; [|done].
  apply (muteMirrors_stable w); [done|..|done].
  - destruct (onended tr); by destruct w as [[]].
  - destruct (onended tr); by destruct w as [[]].
  - assert (tracks (if onended tr
                    then onendedCallback (setTracks (alter endTrack t) w)
                    else setTracks (alter endTrack t) w) =
            alter endTrack t (tracks w)) as ->
      by (destruct (onended tr); by destruct w).
    apply tracksKept_alter. by intros [].
  - intros s l _ Hl. exists l. split; [|done].
    destruct (onended tr); by destruct w.
Qed.

Lemma muteMirrors_step c e :
  closedStore (world c) ∧ flagsConsistent (current (world c)) ∧
    muteMirrors (world c) →
  muteMirrors (world (step c e)).
Proof.
  intros (Hc & Hf & H). step_cases e; try exact H.
  - destruct (world_setRoom room c) as [->| ->]; [done|].
    by destruct (world c).
  - by apply startCall_muteMirrors.
  - rewrite (endCall_eq _ _ (hooks_render c)). done.
  - by apply toggleMute_muteMirrors.
  - apply toggleVideo_muteMirrors; try done. by apply Hf.
  - by apply toggleScreenShare_muteMirrors.
  - eapply muteMirrors_ext; [apply flags_onBroadcast|apply media_onBroadcast..|done].
  - eapply muteMirrors_ext; [apply flags_ontrack|apply media_ontrack..|done].
  - eapply muteMirrors_ext;
      [apply flags_onicecandidate|apply media_onicecandidate..|done].
  - by apply trackEnded_muteMirrors.
Qed.

(** X11. In every state the component reaches from its mount, the mute
    indicator is right: while a local stream is held it has an audio
    track, and [isMuted] is set exactly when the first one, the track
    that [toggleMute] flips, is disabled; without a local stream [isMuted]
    is off.  Turning the camera on or off, sharing the screen, the end of
    a track and the traffic on the channel do not break it. *)
Theorem mute_indicator_mirrors_microphone (u : Id) (room : string)
    (ps : list RoomParticipant) (es : list Event) :
  muteMirrors (world (run (mount u room ps) es)).
Proof.
  apply (run_inv (λ c, closedStore (world c) ∧
                       flagsConsistent (current (world c)) ∧
                       muteMirrors (world c))).
  - intros c e H. pose proof H as (Hc & Hf & _).
    split; [by apply step_closedStore|].
    split; [by apply flagsConsistent_step|by apply muteMirrors_step].
  - destruct (world_mount u room ps) as [-> | ->];
      (split; [by apply closedStore_spec|]);
      (split; [apply initialState_flagsConsistent|done]).
Qed.

(** X12. Two clicks on the mute button cancel out.  When the indicator
    mirrors the microphone track, the second [toggleMute] gives back
    exactly the state before the first: the track is enabled as it was,
    the flag is as it was, and nothing else was touched in between. *)
Theorem toggleMute_twice_restores (r r' : Render) (w : World) :
  localStream (hooks r) = localStream (current w) →
  localStream (hooks r') = localStream (current w) →
  muteMirrors w →
  toggleMute r' (toggleMute r w) = w.
Proof.
  intros Hr Hr'. unfold muteMirrors.
  destruct (localStream (current w)) as [s|] eqn:Els.
  - intros (t & tr & Hh & Ht & Hm).
    rewrite (toggleMute_eq r w s t tr) by done.
    destruct w as [st ts ss cs ch out]. simpl in *.
    rewrite (toggleMute_eq r' _ s t (setEnabled (negb (enabled tr)) tr));
      [|done|by rewrite (getAudioTracks_setEnabled st)
       |by simpl; rewrite list_lookup_alter_eq, Ht].
    simpl. rewrite negb_involutive. f_equal.
    + destruct st; simpl in *. by rewrite Hm.
    + rewrite list_alter_alter_eq, (list_alter_as_insert _ _ _ _ Ht).
      apply list_insert_id. rewrite Ht. by destruct tr.
  - intros _. unfold toggleMute. by rewrite Hr', Hr.
Qed.

(** ** Connections left open *)















(** ** handleAnswer *)

Lemma findPeer_Some u l pc : findPeer u l = Some pc → pc ∈ l ∧ userId pc = u.
Proof.
  unfold findPeer. intros H. apply find_some in H as [Hin E].
  split; [by apply list_elem_of_In|by apply String.eqb_eq].
Qed.

(** X14. An answer from a user who has a session is applied to a
    connection that was made for that user: the remote description of the
    connection of the first session with the sender's id is set to the
    answer, and that connection's candidates go to the sender.  No other
    connection changes, and neither do the hook cells, the tracks, the
    streams or what was sent. *)
Theorem answer_reaches_the_senders_connection (r : Render) (p : Payload)
    (a : Sdp) (w : World) :
  hooks r = current w →
  sessionsWellFormed w →
  from p ∈ userId <$> peerConnections (current w) →
  ∃ pc c,
    findPeer (from p) (peerConnections (current w)) = Some pc ∧
    conns w !! connection pc = Some c ∧ cbTo c = from p ∧
    let w' := handleAnswer r p a w in
    conns w' !! connection pc = Some (setRemoteDescription a c) ∧
    (∀ j, j ≠ connection pc → conns w' !! j = conns w !! j) ∧
    current w' = current w ∧ tracks w' = tracks w ∧
    streams w' = streams w ∧ sent w' = sent w.
Proof.
  intros Hr [_ Hwf] Hin.
  destruct (findPeer (from p) (peerConnections (current w))) as [pc|] eqn:E;
    [|by apply findPeer_None in E].
  destruct (findPeer_Some _ _ _ E) as [Hpc Hu].
  destruct (Hwf pc Hpc) as (c & Hc & Hto).
  exists pc, c. split; [done|]. split; [done|]. split; [congruence|].
  unfold handleAnswer. rewrite Hr, E. destruct w as [st ts ss cs ch out].
  simpl in *. rewrite list_lookup_alter_eq, Hc. split; [done|].
  split; [|done]. intros j Hj. by rewrite list_lookup_alter_ne.
Qed.

(** ** Capture left running *)












(** ** The extra properties at concrete states *)

(** The camera is turned on in the call with [bob] and [carol]. *)
Lemma toggleVideo_on_attaches_camera_witness :
  let w := world inCall in
  let w' := toggleVideo (render inCall) granted w in
  isVideoOn (current w) = false ∧
  localStream (current w) = Some 0 ∧
  streams w !! 0 = Some [0] ∧
  NoDup (connection <$> peerConnections (current w)) ∧
  tracks w' = tracks w ++ [freshTrack video] ∧
  streams w' !! 0 = Some [0; 1].
Proof.
  assert (H1 : isVideoOn (current (world inCall)) = false)
    by (vm_compute; reflexivity).
  assert (H2 : localStream (current (world inCall)) = Some 0)
    by (vm_compute; reflexivity).
  assert (H3 : streams (world inCall) !! 0 = Some [0])
    by (vm_compute; reflexivity).
  assert (H4 : NoDup (connection <$> peerConnections (current (world inCall))))
    by (apply (bool_decide_unpack _); vm_compute; exact I).
  pose proof (toggleVideo_on_attaches_camera (render inCall) (world inCall)
                0 [0] (hooks_render inCall) H1 H2 H3 H4) as H.
  cbv zeta in H. destruct H as (_ & Ht & Hs & _).
  split; [exact H1|]. split; [exact H2|]. split; [exact H3|].
  split; [exact H4|]. split; [exact Ht|]. exact Hs.
Defined.

(** The camera is turned off again. *)
Lemma toggleVideo_off_stops_camera_witness :
  let w := world withCamera in
  let w' := toggleVideo (render withCamera) denied w in
  isVideoOn (hooks (render withCamera)) = true ∧
  localStream (hooks (render withCamera)) = Some 0 ∧
  getVideoTracks w 0 = [1] ∧
  getVideoTracks w' 0 = [] ∧
  getAudioTracks w' 0 = getAudioTracks w 0 ∧
  conns w' = conns w.
Proof.
  assert (H1 : isVideoOn (hooks (render withCamera)) = true)
    by (vm_compute; reflexivity).
  assert (H2 : localStream (hooks (render withCamera)) = Some 0)
    by (vm_compute; reflexivity).
  pose proof (toggleVideo_off_stops_camera (render withCamera) denied
                (world withCamera) 0 H1 H2) as H.
  cbv zeta in H. destruct H as (Hv & Ha & _ & _ & _ & Hc & _).
  split; [exact H1|]. split; [exact H2|].
  split; [vm_compute; reflexivity|].
  split; [exact Hv|]. split; [exact Ha|exact Hc].
Defined.

(** A track of [bob] arrives on the connection that [startCall] made for
    him. *)
Lemma ontrack_records_stream_witness :
  let w := world inCall in
  is_Some (conns w !! 0) ∧
  findPeer "bob" (peerConnections (current (ontrack 0 (Some 9) w))) =
    Some (mkPeer "bob" 0 (Some 9)).
Proof.
  assert (E : ∃ c, conns (world inCall) !! 0 = Some c ∧
                   cbRegisters c = true ∧ cbTo c = "bob" ∧
                   findPeer (cbTo c) (peerConnections (current (world inCall)))
                     = Some (mkPeer "bob" 0 None))
    by (vm_compute; eexists; repeat split).
  destruct E as (c & Hc & Hr & Hto & Hf).
  pose proof (ontrack_records_stream 0 (Some 9) (world inCall) c Hc) as H.
  cbv zeta in H. destruct H as [_ H]. destruct (H Hr) as (H' & _).
  rewrite Hf, Hto in H'. split; [by exists c|exact H'].
Defined.

(** A call is started, a track arrives, the call is ended and started
    again, and a candidate arrives: no offer is among the events. *)
Lemma one_session_per_id_without_offers_witness :
  let es := [ClickStartCall granted; Track 0 (Some 9); ClickEndCall;
             ClickStartCall granted; Broadcast candidateFromBob] in
  forallb (λ e, negb (isOffer e)) es = true ∧
  NoDup (userId <$> peerConnections
                      (current (world (run (mount "alice" "lobby" roster) es)))).
Proof.
  assert (H : forallb (λ e, negb (isOffer e))
                [ClickStartCall granted; Track 0 (Some 9); ClickEndCall;
                 ClickStartCall granted; Broadcast candidateFromBob] = true)
    by (vm_compute; reflexivity).
  split; [exact H|].
  exact (one_session_per_id_without_offers "alice" "lobby" roster _ H).
Defined.

(** The buttons of a call, an answer and the end of a track send
    nothing. *)
Lemma nothing_sent_otherwise_witness :
  let es := [ClickToggleMute; ClickToggleVideo granted;
             ClickToggleScreenShare (shared true);
             Broadcast (mkPayload "alice" "bob" (answer (RemoteSdp 3)));
             Ended 2; ClickEndCall] in
  forallb (λ e, negb (maySend e)) es = true ∧
  sent (world (run inCall es)) = sent (world inCall).
Proof.
  assert (H : forallb (λ e, negb (maySend e))
                [ClickToggleMute; ClickToggleVideo granted;
                 ClickToggleScreenShare (shared true);
                 Broadcast (mkPayload "alice" "bob" (answer (RemoteSdp 3)));
                 Ended 2; ClickEndCall] = true)
    by (vm_compute; reflexivity).
  split; [exact H|].
  exact (nothing_sent_otherwise inCall _ H).
Defined.

(** [alice] joins the call; the offer and the candidate of [bob] that
    arrive afterwards change nothing. *)
Lemma broadcasts_ignored_until_resubscribed_witness :
  let es := [ClickStartCall granted; Broadcast offerFromBob; ClickToggleMute;
             Broadcast candidateFromBob] in
  forallb (λ e, negb (isRoomChange e)) es = true ∧
  run (mount "alice" "lobby" roster) es =
  run (mount "alice" "lobby" roster) [ClickStartCall granted; ClickToggleMute].
Proof.
  assert (H : forallb (λ e, negb (isRoomChange e))
                [ClickStartCall granted; Broadcast offerFromBob;
                 ClickToggleMute; Broadcast candidateFromBob] = true)
    by (vm_compute; reflexivity).
  split; [exact H|].
  exact (broadcasts_ignored_until_resubscribed "alice" "lobby" roster _ H).
Defined.

(** Two clicks on the mute button in the call with [bob] and [carol]. *)
Lemma toggleMute_twice_restores_witness :
  let w := world inCall in
  let r := render inCall in
  let w1 := toggleMute r w in
  let r1 := mkRender (current w1) "alice" "lobby" roster in
  localStream (hooks r) = localStream (current w) ∧
  localStream (hooks r1) = localStream (current w) ∧
  muteMirrors w ∧
  isMuted (current w1) = true ∧
  toggleMute r1 w1 = w.
Proof.
  assert (H1 : localStream (hooks (render inCall)) =
               localStream (current (world inCall))) by reflexivity.
  assert (H2 : localStream
                 (hooks (mkRender
                           (current (toggleMute (render inCall) (world inCall)))
                           "alice" "lobby" roster)) =
               localStream (current (world inCall)))
    by (vm_compute; reflexivity).
  assert (H3 : muteMirrors (world inCall)).
  { unfold muteMirrors.
    replace (localStream (current (world inCall))) with (Some 0)
      by (vm_compute; reflexivity).
    exists 0, (freshTrack audio). repeat split; vm_compute; reflexivity. }
  split; [exact H1|]. split; [exact H2|]. split; [exact H3|].
  split; [vm_compute; reflexivity|].
  exact (toggleMute_twice_restores _ _ _ H1 H2 H3).
Defined.


Lemma run_wellFormed c es :
  sessionsWellFormed (world c) → sessionsWellFormed (world (run c es)).
Proof.
  apply (run_inv (λ c, sessionsWellFormed (world c))).
  intros c' e. apply sessionsWellFormed_step.
Qed.

(** The answer of [bob] to the offer that [startCall] sent him. *)
Lemma answer_reaches_the_senders_connection_witness :
  let w := world inCall in
  let p := mkPayload "alice" "bob" (answer (RemoteSdp 3)) in
  let w' := handleAnswer (render inCall) p (RemoteSdp 3) w in
  sessionsWellFormed w ∧
  from p ∈ userId <$> peerConnections (current w) ∧
  (remoteDescription <$> conns w') = [Some (RemoteSdp 3); None] ∧
  ∃ pc c, findPeer "bob" (peerConnections (current w)) = Some pc ∧
          conns w !! connection pc = Some c ∧ cbTo c = "bob" ∧
          conns w' !! connection pc = Some (setRemoteDescription (RemoteSdp 3) c).
Proof.
  assert (H1 : sessionsWellFormed (world inCall)).
  { apply run_wellFormed.
    split; [apply NoDup_nil_2|]. intros pc Hpc. vm_compute in Hpc.
    by apply elem_of_nil in Hpc. }
  assert (H2 : "bob" ∈ userId <$> peerConnections (current (world inCall)))
    by (vm_compute; apply list_elem_of_here).
  pose proof (answer_reaches_the_senders_connection (render inCall)
                (mkPayload "alice" "bob" (answer (RemoteSdp 3))) (RemoteSdp 3)
                (world inCall) (hooks_render inCall) H1 H2) as H.
  cbv zeta in H. destruct H as (pc & c & Hf & Hc & Hto & Hc' & _).
  split; [exact H1|]. split; [exact H2|].
  split; [vm_compute; reflexivity|].
  exists pc, c. split; [exact Hf|]. split; [exact Hc|]. split; [exact Hto|].
  exact Hc'.
Defined.

